(** * Photo/archive correlation bot: a model of [bot.py] and its properties

    [bot.py] keeps, per conversation, a queue of pending photo groups and
    matches it against incoming archive documents.  The handlers are modelled
    as functions on the dictionary [self.groups]; the calls to the chat
    transport are modelled in a small logging/exception monad whose outcomes
    are chosen by an oracle, so that delivery failures can be quantified over.

    Conventions of the model.
    - [datetime] and [timedelta] values are integers (microseconds); every
      read of [datetime.utcnow()] is an explicit argument of the function that
      performs it.
    - A Python [str] is a [string] (its UTF-8 bytes).  [lower] is
      [str.lower] on names made of ASCII characters and leaves every other
      byte as it is, where [str.lower] would lower the character.  The handler
      uses the lowered extension for one thing only, the test
      [ext in ALLOWED_EXTENSIONS]; the allowed extensions are ASCII and no
      non-ASCII character lowers to one of their letters, so the test has the
      same result and the handlers behave alike on every name.  Statements
      about the value of the extension itself are made for ASCII names.
    - The module-level constants [OWNER_ID], [PHOTO_TTL],
      [DELETE_ORIGINAL_PHOTO] and [DELETE_ARCHIVE] are the fields of a
      configuration record; [source_config] holds the values of the file.
    - One handler call is one atomic step (events of a conversation are
      serialised). *)

From stdpp Require Import gmap strings list fin_maps sorting.
From Stdlib Require Import ZArith Ascii Lia.

Local Open Scope Z_scope.

(** ** Strings: [rsplit(".", 1)] and [lower] *)

Definition lower_ascii (c : ascii) : ascii :=
  let n := N_of_ascii c in
  if ((65 <=? n) && (n <=? 90))%N then ascii_of_N (n + 32) else c.

(** [s.lower()] for a name made of ASCII characters; bytes of other
    characters are kept. *)
Fixpoint lower (s : string) : string :=
  match s with
  | EmptyString => EmptyString
  | String c s' => String (lower_ascii c) (lower s')
  end.

(** The split point of [s.rsplit(".", 1)]: the text before and after the last
    ['.'], when there is one. *)
Fixpoint rsplit_at_dot (s : string) : option (string * string) :=
  match s with
  | EmptyString => None
  | String c s' =>
      match rsplit_at_dot s' with
      | Some (h, t) => Some (String c h, t)
      | None => if Ascii.eqb c "." then Some (EmptyString, s') else None
      end
  end.

(** [s.rsplit(".", 1)] *)
Definition rsplit_dot (s : string) : list string :=
  match rsplit_at_dot s with
  | Some (h, t) => [h; t]
  | None => [s]
  end.

(** ** Configuration and data model *)

Record Config := {
  OWNER_ID : option Z;
  PHOTO_TTL : Z;
  DELETE_ORIGINAL_PHOTO : bool;
  DELETE_ARCHIVE : bool
}.

Definition source_config : Config :=
  {| OWNER_ID := None;
     PHOTO_TTL := 10 * 60 * 1000000;
     DELETE_ORIGINAL_PHOTO := true;
     DELETE_ARCHIVE := true |}.

Definition ALLOWED_EXTENSIONS : gset string :=
  {[ "zip"; "rar"; "7z"; "stl"; "obj"; "3mf"; "step"; "stp"; "3ds"; "fbx" ]}.

Record PhotoGroup := {
  media_group_id : option string;
  file_ids : list string;
  message_ids : list Z;
  created_at : Z
}.

(** The key of a conversation: chat id and optional thread id. *)
Abbreviation Key := (Z * option Z)%type.

(** [self.groups] *)
Abbreviation Store := (gmap Key (list PhotoGroup)).

Record User := { id : Z }.
Record PhotoSize := { file_id : string }.
Record Document := { file_name : option string }.

Module Message.
Record t := {
  chat_id : Z;
  message_thread_id : option Z;
  from_user : option User;
  message_id : Z;
  media_group_id : option string;
  photo : option (list PhotoSize);
  document : option Document
}.
End Message.

Record InputMediaPhoto := { media : string; caption : option string }.

(** Requests sent to the chat transport through [self.bot]. *)
Inductive ApiCall :=
  | send_photo (chat : Z) (photo : string) (caption : string) (thread : option Z)
  | send_media_group (chat : Z) (media : list InputMediaPhoto) (thread : option Z)
  | delete_message (chat : Z) (message_id : Z).

Inductive exn := TypeError | IndexError | TransportError.

(** ** The transport monad

    A computation receives the oracle [fails] (does the [n]-th request of the
    handler call raise?) and the log of the requests attempted so far; it
    returns a value or a raised exception, and the extended log. *)

Inductive result (A : Type) :=
  | Ok (a : A)
  | Raise (e : exn).
Arguments Ok {A} a.
Arguments Raise {A} e.

Definition Api (A : Type) : Type :=
  (nat -> bool) -> list ApiCall -> result A * list ApiCall.

#[global] Instance Api_ret : MRet Api := fun A a _ log => (Ok a, log).

#[global] Instance Api_bind : MBind Api := fun A B k m fails log =>
  match m fails log with
  | (Ok a, log') => k a fails log'
  | (Raise e, log') => (Raise e, log')
  end.

Definition raise {A} (e : exn) : Api A := fun _ log => (Raise e, log).

(** [await self.bot.<request>(...)] *)
Definition call (c : ApiCall) : Api unit :=
  fun fails log =>
    (if fails (length log) then Raise TransportError else Ok tt, log ++ [c]).

(** [try: body / except Exception: pass] *)
Definition try_pass (body : Api unit) : Api unit :=
  fun fails log =>
    match body fails log with
    | (Raise _, log') => (Ok tt, log')
    | r => r
    end.

Definition when (b : bool) (body : Api unit) : Api unit :=
  if b then body else mret tt.

(** [for x in l: body x] *)
Fixpoint for_each {A} (l : list A) (body : A -> Api unit) : Api unit :=
  match l with
  | [] => mret tt
  | x :: l' => body x;; for_each l' body
  end.

(** ** The store operations of [PhotoArchiveBot] *)

(** A Python value used as a condition: [None] and the empty list are false. *)
Definition truthy_queue (q : option (list PhotoGroup)) : bool :=
  match q with
  | Some (_ :: _) => true
  | _ => false
  end.

(** [None] and the empty string are false. *)
Definition truthy_str (s : option string) : bool :=
  match s with
  | Some (String _ _) => true
  | _ => false
  end.

(** What one handler call leaves behind: the store, the requests it
    attempted (in order), and the exception that escaped it, if any. *)
Record Outcome := {
  groups_after : Store;
  calls : list ApiCall;
  raised : option exn
}.

(** A return without any request. *)
Definition silent (groups : Store) : Outcome :=
  {| groups_after := groups; calls := []; raised := None |}.

Section Bot.
Variable cfg : Config.

Definition _key (message : Message.t) : Key :=
  (Message.chat_id message, Message.message_thread_id message).

Definition _skip_user (message : Message.t) : bool :=
  match OWNER_ID cfg with
  | None => false
  | Some owner =>
      match Message.from_user message with
      | None => true
      | Some u => negb (id u =? owner)
      end
  end.

(** [_queue]: registers an empty list under an absent key; returns the
    store and the list. *)
Definition _queue (key : Key) (groups : Store) : Store * list PhotoGroup :=
  match groups !! key with
  | None => (<[key := []]> groups, [])
  | Some q => (groups, q)
  end.

(** [(now - g.created_at) > PHOTO_TTL] *)
Definition expired (now : Z) (g : PhotoGroup) : bool :=
  now - created_at g >? PHOTO_TTL cfg.

(** The loop of [_cleanup]:
    [while queue and (now - queue[0].created_at) > PHOTO_TTL: queue.pop(0)] *)
Fixpoint pop_expired (now : Z) (queue : list PhotoGroup) : list PhotoGroup :=
  match queue with
  | [] => []
  | g :: rest => if expired now g then pop_expired now rest else queue
  end.

(** [_cleanup]; [now] is the value of [datetime.utcnow()] read inside. *)
Definition _cleanup (now : Z) (key : Key) (groups : Store) : Store :=
  if negb (truthy_queue (groups !! key)) then groups
  else
    match groups !! key with
    | None => groups
    | Some queue =>
        let queue' := pop_expired now queue in
        match queue' with
        | [] => delete key groups
        | _ => <[key := queue']> groups
        end
    end.

(** The photo group [queue[-1]] after
    [group.file_ids.append(file_id); group.message_ids.append(message_id)]. *)
Definition extended (group : PhotoGroup) (fid : string) (mid : Z) : PhotoGroup :=
  {| media_group_id := media_group_id group;
     file_ids := file_ids group ++ [fid];
     message_ids := message_ids group ++ [mid];
     created_at := created_at group |}.

(** [_handle_photo]; [now] is read at the top of the handler, [now_c] inside
    [_cleanup]. *)
Definition _handle_photo (now now_c : Z) (message : Message.t)
    (groups : Store) : Outcome :=
  if _skip_user message then silent groups
  else
    let key := _key message in
    let '(groups, queue) := _queue key groups in
    let mgid := Message.media_group_id message in
    match Message.photo message with
    | None => {| groups_after := groups; calls := []; raised := Some TypeError |}
    | Some sizes =>
        match last sizes with
        | None =>
            {| groups_after := groups; calls := []; raised := Some IndexError |}
        | Some size =>
            let fid := file_id size in
            let fresh :=
              {| media_group_id := mgid;
                 file_ids := [fid];
                 message_ids := [Message.message_id message];
                 created_at := now |} in
            let queue' :=
              match last queue with
              | Some group =>
                  if truthy_str mgid
                     && bool_decide (media_group_id group = mgid)
                  then removelast queue
                         ++ [extended group fid (Message.message_id message)]
                  else queue ++ [fresh]
              | None => queue ++ [fresh]
              end in
            silent (_cleanup now_c key (<[key := queue']> groups))
        end
    end.

(** The repost of [_handle_document]: one photo or an album whose first
    item carries the caption. *)
Definition repost (message : Message.t) (filename : string)
    (group : PhotoGroup) : Api unit :=
  if (length (file_ids group) =? 1)%nat then
    match file_ids group !! 0%nat with
    | Some fid =>
        call (send_photo (Message.chat_id message) fid filename
                (Message.message_thread_id message))
    | None => raise IndexError
    end
  else
    let items :=
      map (fun fid => {| media := fid; caption := None |}) (file_ids group) in
    match items with
    | [] => raise IndexError
    | first :: rest =>
        call (send_media_group (Message.chat_id message)
                ({| media := media first; caption := Some filename |} :: rest)
                (Message.message_thread_id message))
    end.

Definition delete_originals (message : Message.t) (group : PhotoGroup)
    : Api unit :=
  when (DELETE_ORIGINAL_PHOTO cfg)
    (for_each (message_ids group) (fun mid =>
       try_pass (call (delete_message (Message.chat_id message) mid)))).

Definition delete_archive (message : Message.t) : Api unit :=
  when (DELETE_ARCHIVE cfg)
    (try_pass (call (delete_message (Message.chat_id message)
                       (Message.message_id message)))).

(** Everything [_handle_document] does with the transport after the match. *)
Definition respond (message : Message.t) (filename : string)
    (group : PhotoGroup) : Api unit :=
  repost message filename group;;
  delete_originals message group;;
  delete_archive message.

(** [ext = filename.rsplit(".", 1)[-1].lower()] *)
Definition extension (filename : string) : string :=
  lower (default EmptyString (last (rsplit_dot filename))).

(** [group.message_ids and group.message_ids[-1] >= message.message_id] *)
Definition not_after (group : PhotoGroup) (message : Message.t) : bool :=
  match last (message_ids group) with
  | Some l => l >=? Message.message_id message
  | None => false
  end.

(** [_handle_document]; [now] is read inside [_cleanup], [fails] decides
    which requests raise. *)
Definition _handle_document (now : Z) (fails : nat -> bool)
    (message : Message.t) (groups : Store) : Outcome :=
  if _skip_user message then silent groups
  else
    match Message.document message with
    | None => silent groups
    | Some doc =>
        if negb (truthy_str (file_name doc)) then silent groups
        else
          let filename := default EmptyString (file_name doc) in
          let ext := extension filename in
          if negb (bool_decide (ext ∈ ALLOWED_EXTENSIONS)) then silent groups
          else
            let key := _key message in
            if negb (truthy_queue (groups !! key)) then silent groups
            else
              let groups := _cleanup now key groups in
              match groups !! key with
              | None | Some [] => silent groups
              | Some (group :: rest) =>
                  if not_after group message then silent groups
                  else
                    let groups := <[key := rest]> groups in
                    match respond message filename group fails [] with
                    | (Raise e, log) =>
                        {| groups_after := groups; calls := log;
                           raised := Some e |}
                    | (Ok _, log) =>
                        {| groups_after :=
                             match groups !! key with
                             | Some [] => delete key groups
                             | _ => groups
                             end;
                           calls := log; raised := None |}
                    end
              end
    end.

End Bot.

(** The queue registered under a key, empty when the key is absent. *)
Definition queue_of (groups : Store) (key : Key) : list PhotoGroup :=
  default [] (groups !! key).

(** ** What the spec asks the transport to receive

    These follow the words of the spec (section 4.2, steps 7 to 9) and are
    compared below with what [respond] really logs. *)

(** The album of step 7: the photos in batch order, the caption on the first
    item only. *)
Definition spec_album (filename : string) (fids : list string)
    : list InputMediaPhoto :=
  match fids with
  | [] => []
  | p :: ps =>
      {| media := p; caption := Some filename |}
        :: map (fun f => {| media := f; caption := None |}) ps
  end.

(** The repost of step 7. *)
Definition spec_repost (message : Message.t) (filename : string)
    (g : PhotoGroup) : ApiCall :=
  match file_ids g with
  | [p] =>
      send_photo (Message.chat_id message) p filename
        (Message.message_thread_id message)
  | fids =>
      send_media_group (Message.chat_id message) (spec_album filename fids)
        (Message.message_thread_id message)
  end.

(** The deletions of steps 8 and 9. *)
Definition spec_deletes (cfg : Config) (message : Message.t) (g : PhotoGroup)
    : list ApiCall :=
  (if DELETE_ORIGINAL_PHOTO cfg
   then map (delete_message (Message.chat_id message)) (message_ids g)
   else [])
  ++ (if DELETE_ARCHIVE cfg
      then [delete_message (Message.chat_id message)
              (Message.message_id message)]
      else []).

(** A document passes authorization, the extension filter, the queue checks,
    eviction and the ordering check, and finds [g] at the front of the evicted
    queue, followed by [rest]. *)
Definition Matches (cfg : Config) (now : Z) (message : Message.t)
    (groups : Store) (filename : string) (g : PhotoGroup)
    (rest : list PhotoGroup) : Prop :=
  _skip_user cfg message = false
  ∧ Message.document message = Some {| file_name := Some filename |}
  ∧ filename ≠ EmptyString
  ∧ extension filename ∈ ALLOWED_EXTENSIONS
  ∧ queue_of (_cleanup cfg now (_key message) groups) (_key message) = g :: rest
  ∧ not_after g message = false.

(** The tail condition of [appendPhoto] in the words of the spec: the tail
    batch [t] exists, its group id is non-empty and equals the event's. *)
Definition spec_extends (q : list PhotoGroup) (mgid : option string)
    (t : PhotoGroup) : Prop :=
  last q = Some t ∧ truthy_str (media_group_id t) = true
  ∧ media_group_id t = mgid.

(** ** Runs of the bot *)

Inductive Update :=
  | PhotoUpdate (now now_c : Z) (message : Message.t)
  | DocumentUpdate (now : Z) (fails : nat -> bool) (message : Message.t).

Definition handle (cfg : Config) (u : Update) (groups : Store) : Outcome :=
  match u with
  | PhotoUpdate now now_c message => _handle_photo cfg now now_c message groups
  | DocumentUpdate now fails message =>
      _handle_document cfg now fails message groups
  end.

(** The stores the bot can be in: it starts with [self.groups = {}] and every
    update is handled on the store the previous one left. *)
Inductive reachable (cfg : Config) : Store -> Prop :=
  | reachable_start : reachable cfg ∅
  | reachable_handle u groups :
      reachable cfg groups -> reachable cfg (groups_after (handle cfg u groups)).

Definition batch_in (groups : Store) (g : PhotoGroup) : Prop :=
  ∃ key q, groups !! key = Some q ∧ g ∈ q.

(** [len(file_ids) == len(message_ids) >= 1] *)
Definition well_formed (g : PhotoGroup) : Prop :=
  length (file_ids g) = length (message_ids g) ∧ (1 <= length (file_ids g))%nat.

(** Nondecreasing [created_at] along a queue. *)
Definition by_creation (a b : PhotoGroup) : Prop := created_at a <= created_at b.

(** A queue in creation order whose batches were created by time [T]. *)
Definition queue_ordered (T : Z) (q : list PhotoGroup) : Prop :=
  StronglySorted by_creation q ∧ Forall (fun g => created_at g <= T) q.

Definition store_ordered (T : Z) (groups : Store) : Prop :=
  ∀ key q, groups !! key = Some q -> queue_ordered T q.

(** Runs under a clock that never goes back: [clocked cfg T groups] when
    [groups] is reached by updates whose successive clock reads do not
    decrease, the last one being [T]. *)
Inductive clocked (cfg : Config) : Z -> Store -> Prop :=
  | clocked_start T : clocked cfg T ∅
  | clocked_photo T now now_c message groups :
      clocked cfg T groups -> T <= now -> now <= now_c ->
      clocked cfg now_c
        (groups_after (_handle_photo cfg now now_c message groups))
  | clocked_document T now fails message groups :
      clocked cfg T groups -> T <= now ->
      clocked cfg now
        (groups_after (_handle_document cfg now fails message groups)).

(** The message of an update and the key it is handled under. *)
Definition update_message (u : Update) : Message.t :=
  match u with
  | PhotoUpdate _ _ message => message
  | DocumentUpdate _ _ message => message
  end.

Definition update_key (u : Update) : Key := _key (update_message u).

(** [message.photo[-1].file_id], when the message has a size. *)
Definition photo_ref (message : Message.t) : option string :=
  match Message.photo message with
  | Some sizes => file_id <$> last sizes
  | None => None
  end.

(** Updates handled one after the other, each on the store left by the
    previous one. *)
Definition run (cfg : Config) (us : list Update) (groups : Store) : Store :=
  foldl (fun g u => groups_after (handle cfg u g)) groups us.

(** No key is registered with an empty list. *)
Definition no_empty_queue (groups : Store) : Prop :=
  ∀ key : Key, groups !! key ≠ Some [].

(** A photo update that belongs to a burst: from an admitted sender, for
    conversation [key], with group id [gid], with a size, and evicting at a
    clock value within the TTL of [T0]. *)
Definition burst_member (cfg : Config) (key : Key) (gid : string) (T0 : Z)
    (u : Update) : Prop :=
  match u with
  | PhotoUpdate _ now_c message =>
      _skip_user cfg message = false
      ∧ _key message = key
      ∧ Message.media_group_id message = Some gid
      ∧ is_Some (photo_ref message)
      ∧ now_c - T0 <= PHOTO_TTL cfg
  | DocumentUpdate _ _ _ => False
  end.

(** The file ids and the message ids a list of updates brings, in order. *)
Definition burst_refs (us : list Update) : list string :=
  map (fun u => default EmptyString (photo_ref (update_message u))) us.

Definition burst_ids (us : list Update) : list Z :=
  map (fun u => Message.message_id (update_message u)) us.

(** The sender of the update is authorized, in the words of the spec: no
    owner is configured, or the update carries a sender who is the owner. *)
Definition authorized (cfg : Config) (message : Message.t) : Prop :=
  OWNER_ID cfg = None
  ∨ ∃ u, Message.from_user message = Some u ∧ OWNER_ID cfg = Some (id u).

(** The configuration with [OWNER_ID = None] and the other constants kept. *)
Definition without_owner (cfg : Config) : Config :=
  {| OWNER_ID := None;
     PHOTO_TTL := PHOTO_TTL cfg;
     DELETE_ORIGINAL_PHOTO := DELETE_ORIGINAL_PHOTO cfg;
     DELETE_ARCHIVE := DELETE_ARCHIVE cfg |}.

(** The name is made of ASCII characters only. *)
Fixpoint is_ascii (s : string) : bool :=
  match s with
  | EmptyString => true
  | String c s' => (N_of_ascii c <? 128)%N && is_ascii s'
  end.

(** ** Sample events *)

Definition photo_message (mid : Z) (mgid : option string) (fid : string)
    (sender : option User) : Message.t :=
  {| Message.chat_id := 1; Message.message_thread_id := None;
     Message.from_user := sender; Message.message_id := mid;
     Message.media_group_id := mgid;
     Message.photo := Some [ {| file_id := "thumb" |}; {| file_id := fid |} ];
     Message.document := None |}.

Definition document_message (mid : Z) (name : string) (sender : option User)
    : Message.t :=
  {| Message.chat_id := 1; Message.message_thread_id := None;
     Message.from_user := sender; Message.message_id := mid;
     Message.media_group_id := None; Message.photo := None;
     Message.document := Some {| file_name := Some name |} |}.

Definition single_batch : PhotoGroup :=
  {| media_group_id := None; file_ids := ["P1"]; message_ids := [5];
     created_at := 0 |}.

Definition album_batch : PhotoGroup :=
  {| media_group_id := Some "g1"; file_ids := ["P1"; "P2"];
     message_ids := [10; 11]; created_at := 0 |}.

(** A store with one conversation, chat 1 without thread. *)
Definition pending (q : list PhotoGroup) : Store := {[ (1, None) := q ]}.

(** The transport that delivers every request. *)
Definition never : nat -> bool := fun _ => false.

(** ** Running the transport monad *)

Section ApiFacts.
Variable fails : nat -> bool.

Lemma run_bind {A B} (m : Api A) (k : A -> Api B) log :
  (m ≫= k) fails log =
  match m fails log with
  | (Ok a, log') => k a fails log'
  | (Raise e, log') => (Raise e, log')
  end.
Proof. reflexivity. Qed.

Lemma run_try_call c log :
  try_pass (call c) fails log = (Ok tt, log ++ [c]).
Proof. unfold try_pass, call. destruct (fails (length log)); reflexivity. Qed.

(** The deletion loop attempts every element, whatever the oracle says. *)
Lemma run_delete_loop chat (l : list Z) log :
  for_each l (fun mid => try_pass (call (delete_message chat mid))) fails log
  = (Ok tt, log ++ map (delete_message chat) l).
Proof.
  revert log. induction l as [|mid l IH]; intros log; simpl.
  - unfold mret, Api_ret. by rewrite app_nil_r.
  - rewrite run_bind, run_try_call, IH, <- app_assoc. reflexivity.
Qed.

Lemma run_repost message filename g log :
  file_ids g ≠ [] ->
  repost message filename g fails log
  = (if fails (length log) then Raise TransportError else Ok tt,
     log ++ [spec_repost message filename g]).
Proof.
  intros Hne. unfold repost, spec_repost.
  destruct (file_ids g) as [|p [|p' ps]]; [done | reflexivity | reflexivity].
Qed.

Lemma run_repost_empty message filename g log :
  file_ids g = [] ->
  repost message filename g fails log = (Raise IndexError, log).
Proof. intros E. unfold repost. rewrite E. reflexivity. Qed.

Lemma run_deletes cfg message g log :
  (delete_originals cfg message g;; delete_archive cfg message) fails log
  = (Ok tt, log ++ spec_deletes cfg message g).
Proof.
  assert (delete_originals cfg message g fails log
          = (Ok tt, log ++ (if DELETE_ORIGINAL_PHOTO cfg
               then map (delete_message (Message.chat_id message))
                      (message_ids g)
               else []))) as H1.
  { unfold delete_originals, when. destruct (DELETE_ORIGINAL_PHOTO cfg).
    - apply run_delete_loop.
    - unfold mret, Api_ret. by rewrite app_nil_r. }
  assert (forall log', delete_archive cfg message fails log'
          = (Ok tt, log' ++ (if DELETE_ARCHIVE cfg
               then [delete_message (Message.chat_id message)
                       (Message.message_id message)]
               else []))) as H2.
  { intros log'. unfold delete_archive, when. destruct (DELETE_ARCHIVE cfg).
    - apply run_try_call.
    - unfold mret, Api_ret. by rewrite app_nil_r. }
  rewrite run_bind, H1, H2. unfold spec_deletes. by rewrite app_assoc.
Qed.

Lemma run_respond cfg message filename g :
  file_ids g ≠ [] ->
  respond cfg message filename g fails []
  = if fails 0%nat
    then (Raise TransportError, [spec_repost message filename g])
    else (Ok tt, spec_repost message filename g :: spec_deletes cfg message g).
Proof.
  intros Hne. unfold respond. rewrite run_bind, (run_repost _ _ _ _ Hne).
  simpl. destruct (fails 0%nat); [reflexivity |].
  rewrite run_deletes. reflexivity.
Qed.

Lemma run_respond_empty cfg message filename g :
  file_ids g = [] ->
  respond cfg message filename g fails [] = (Raise IndexError, []).
Proof.
  intros E. unfold respond. rewrite run_bind, (run_repost_empty _ _ _ _ E).
  reflexivity.
Qed.
End ApiFacts.

(** ** Eviction *)

Section CleanupFacts.
Variable cfg : Config.
Variable now : Z.

Lemma pop_expired_split q :
  ∃ gone, q = gone ++ pop_expired cfg now q
          ∧ Forall (fun g => expired cfg now g = true) gone.
Proof.
  induction q as [|g q [gone [Hq Hall]]]; simpl.
  - exists []. split; [reflexivity | constructor].
  - destruct (expired cfg now g) eqn:E.
    + exists (g :: gone). split; [simpl; congruence | by constructor].
    + exists []. split; [reflexivity | constructor].
Qed.

Lemma pop_expired_head q g rest :
  pop_expired cfg now q = g :: rest -> expired cfg now g = false.
Proof.
  induction q as [|h q IH]; simpl; [discriminate |].
  destruct (expired cfg now h) eqn:E; [exact IH |].
  intros [= -> _]. exact E.
Qed.

Lemma pop_expired_fixed q g rest :
  pop_expired cfg now q = g :: rest ->
  pop_expired cfg now (g :: rest) = g :: rest.
Proof. intros H. simpl. by rewrite (pop_expired_head _ _ _ H). Qed.

Lemma pop_expired_all q :
  Forall (fun g => expired cfg now g = true) q -> pop_expired cfg now q = [].
Proof. induction 1 as [|g q Hg _ IH]; simpl; [reflexivity | by rewrite Hg]. Qed.

Lemma pop_expired_elem q g : g ∈ pop_expired cfg now q -> g ∈ q.
Proof.
  destruct (pop_expired_split q) as [gone [Hq _]]. intros Hin.
  rewrite Hq. apply elem_of_app. by right.
Qed.

(** The store after [_cleanup], written out. *)
Lemma cleanup_unfold (key : Key) (groups : Store) :
  _cleanup cfg now key groups =
  match groups !! key with
  | Some (g :: q) =>
      match pop_expired cfg now (g :: q) with
      | [] => delete key groups
      | q' => <[key := q']> groups
      end
  | _ => groups
  end.
Proof.
  unfold _cleanup. destruct (groups !! key) as [[|g q]|]; try reflexivity.
  cbn [truthy_queue negb]. by destruct (pop_expired cfg now (g :: q)).
Qed.

Lemma cleanup_queue (key : Key) (groups : Store) :
  queue_of (_cleanup cfg now key groups) key
  = pop_expired cfg now (queue_of groups key).
Proof.
  rewrite cleanup_unfold. unfold queue_of.
  destruct (groups !! key) as [[|g q]|] eqn:E; simpl; rewrite ?E; try reflexivity.
  destruct (expired cfg now g).
  - destruct (pop_expired cfg now q) eqn:Eq.
    + by rewrite lookup_delete_eq.
    + by rewrite lookup_insert_eq.
  - by rewrite lookup_insert_eq.
Qed.

Lemma cleanup_other (key k : Key) (groups : Store) :
  k ≠ key -> _cleanup cfg now key groups !! k = groups !! k.
Proof.
  intros Hne. rewrite cleanup_unfold.
  destruct (groups !! key) as [[|g q]|]; try reflexivity.
  destruct (pop_expired cfg now (g :: q)).
  - by rewrite lookup_delete_ne.
  - by rewrite lookup_insert_ne.
Qed.

(** After [_cleanup] the key is absent or holds a queue whose front is not
    expired, unless it held the empty list before. *)
Lemma cleanup_lookup (key : Key) (groups : Store) :
  truthy_queue (groups !! key) = true ->
  _cleanup cfg now key groups !! key =
  match pop_expired cfg now (queue_of groups key) with
  | [] => None
  | q' => Some q'
  end.
Proof.
  rewrite cleanup_unfold. unfold queue_of.
  destruct (groups !! key) as [[|g q]|] eqn:E; simpl; try discriminate.
  intros _. destruct (expired cfg now g).
  - destruct (pop_expired cfg now q).
    + by rewrite lookup_delete_eq.
    + by rewrite lookup_insert_eq.
  - by rewrite lookup_insert_eq.
Qed.

Lemma cleanup_idempotent (key : Key) (groups : Store) :
  _cleanup cfg now key (_cleanup cfg now key groups)
  = _cleanup cfg now key groups.
Proof.
  rewrite (cleanup_unfold key groups).
  destruct (groups !! key) as [[|g q]|] eqn:E.
  - rewrite cleanup_unfold, E. reflexivity.
  - destruct (pop_expired cfg now (g :: q)) as [|g' q'] eqn:Ep.
    + rewrite cleanup_unfold, lookup_delete_eq. reflexivity.
    + rewrite cleanup_unfold, lookup_insert_eq.
      rewrite (pop_expired_fixed _ _ _ Ep). apply insert_insert_eq.
  - rewrite cleanup_unfold, E. reflexivity.
Qed.

(** Every batch of the store after [_cleanup] was in it before. *)
Lemma cleanup_batches (key k : Key) (groups : Store)
    (q : list PhotoGroup) (g : PhotoGroup) :
  _cleanup cfg now key groups !! k = Some q -> g ∈ q ->
  ∃ q0, groups !! k = Some q0 ∧ g ∈ q0.
Proof.
  destruct (decide (k = key)) as [->|Hne].
  - intros Hq Hg.
    assert (queue_of (_cleanup cfg now key groups) key = q) as Hq'
      by (unfold queue_of; by rewrite Hq).
    rewrite cleanup_queue in Hq'. subst q. apply pop_expired_elem in Hg.
    unfold queue_of in Hg. destruct (groups !! key) as [q0|]; simpl in Hg.
    + by exists q0.
    + by apply elem_of_nil in Hg.
  - rewrite cleanup_other by done. intros Hq Hg. by exists q.
Qed.

End CleanupFacts.

(** ** The document handler, case by case *)

Section DocumentFacts.
Variable cfg : Config.
Variable now : Z.
Variable fails : nat -> bool.

Lemma queue_of_cons (groups : Store) (key : Key) (g : PhotoGroup)
    (rest : list PhotoGroup) :
  queue_of groups key = g :: rest -> groups !! key = Some (g :: rest).
Proof. unfold queue_of. destruct (groups !! key); simpl; congruence. Qed.

Lemma not_after_spec g message :
  not_after g message = true <->
  ∃ l, last (message_ids g) = Some l ∧ Message.message_id message <= l.
Proof.
  unfold not_after. destruct (last (message_ids g)) as [l|].
  - rewrite Z.geb_le. split; [eauto | intros [l' [[= <-] H]]; exact H].
  - split; [discriminate | intros [l' [[=] _]]].
Qed.

(** A matching document: the front batch is popped and [respond] runs; the
    key is deregistered at the end only when no exception escaped. *)
Lemma handle_document_matched (message : Message.t) (groups : Store)
    (filename : string) (g : PhotoGroup) (rest : list PhotoGroup) :
  Matches cfg now message groups filename g rest ->
  _handle_document cfg now fails message groups =
  let key := _key message in
  let evicted := _cleanup cfg now key groups in
  match respond cfg message filename g fails [] with
  | (Raise e, log) =>
      {| groups_after := <[key := rest]> evicted; calls := log;
         raised := Some e |}
  | (Ok _, log) =>
      {| groups_after :=
           match rest with
           | [] => delete key evicted
           | _ => <[key := rest]> evicted
           end;
         calls := log; raised := None |}
  end.
Proof.
  intros (Hauth & Hdoc & Hname & Hext & Hfront & Hord).
  unfold _handle_document. rewrite Hauth, Hdoc. simpl.
  destruct filename as [|c filename]; [done |]. simpl.
  rewrite (bool_decide_eq_true_2 _ Hext). simpl.
  assert (truthy_queue (groups !! _key message) = true) as Htruthy.
  { destruct (truthy_queue (groups !! _key message)) eqn:E; [reflexivity |].
    rewrite cleanup_queue in Hfront. unfold queue_of in Hfront.
    destruct (groups !! _key message) as [[|? ?]|]; simpl in *; discriminate. }
  rewrite Htruthy. simpl.
  rewrite (queue_of_cons _ _ _ _ Hfront), Hord.
  destruct (respond cfg message (String c filename) g fails []) as [[[]|e] log];
    [| reflexivity].
  rewrite lookup_insert_eq. destruct rest; [| reflexivity].
  by rewrite delete_insert_eq.
Qed.

(** Every call of the handler is a silent return on the given store, a silent
    return after eviction, or a match. *)
Lemma handle_document_cases (message : Message.t) (groups : Store) :
  _handle_document cfg now fails message groups = silent groups
  ∨ _handle_document cfg now fails message groups
    = silent (_cleanup cfg now (_key message) groups)
  ∨ ∃ filename g rest, Matches cfg now message groups filename g rest.
Proof.
  unfold _handle_document.
  destruct (_skip_user cfg message) eqn:Hauth; [by left |].
  destruct (Message.document message) as [[[filename|]]|] eqn:Hdoc;
    [| by left | by left].
  destruct filename as [|c filename]; [by left |]. simpl.
  destruct (bool_decide (extension (String c filename) ∈ ALLOWED_EXTENSIONS))
    eqn:Hext; [| by left]. simpl.
  destruct (truthy_queue (groups !! _key message)) eqn:Htruthy; [| by left].
  simpl.
  destruct (_cleanup cfg now (_key message) groups !! _key message)
    as [[|g rest]|] eqn:Hfront; [by right; left | | by right; left].
  destruct (not_after g message) eqn:Hord; [by right; left |].
  right; right. exists (String c filename), g, rest.
  repeat split; try done.
  - by apply bool_decide_eq_true in Hext.
  - unfold queue_of. by rewrite Hfront.
Qed.

(** After a match the key holds the rest of the evicted queue. *)
Lemma matched_queue (message : Message.t) (groups : Store)
    (filename : string) (g : PhotoGroup) (rest : list PhotoGroup) :
  Matches cfg now message groups filename g rest ->
  queue_of (groups_after (_handle_document cfg now fails message groups))
    (_key message) = rest.
Proof.
  intros HM. rewrite (handle_document_matched _ _ _ _ _ HM). simpl.
  destruct (respond cfg message filename g fails []) as [[[]|e] log]; simpl.
  - destruct rest; unfold queue_of.
    + by rewrite lookup_delete_eq.
    + by rewrite lookup_insert_eq.
  - unfold queue_of. by rewrite lookup_insert_eq.
Qed.

(** A match leaves the other keys alone. *)
Lemma matched_other (message : Message.t) (groups : Store)
    (filename : string) (g : PhotoGroup) (rest : list PhotoGroup) (k : Key) :
  Matches cfg now message groups filename g rest ->
  k ≠ _key message ->
  groups_after (_handle_document cfg now fails message groups) !! k
  = groups !! k.
Proof.
  intros HM Hne. rewrite (handle_document_matched _ _ _ _ _ HM). simpl.
  destruct (respond cfg message filename g fails []) as [[[]|e] log]; simpl.
  - destruct rest.
    + rewrite lookup_delete_ne by done. by apply cleanup_other.
    + rewrite lookup_insert_ne by done. by apply cleanup_other.
  - rewrite lookup_insert_ne by done. by apply cleanup_other.
Qed.

End DocumentFacts.

(** ** The photo handler, case by case *)

Section PhotoFacts.
Variable cfg : Config.

Lemma last_split {A} (q : list A) (t : A) :
  last q = Some t -> q = removelast q ++ [t].
Proof.
  intros H. apply last_Some in H as [l' ->]. by rewrite removelast_last.
Qed.

(** A photo from an authorized sender with at least one size: the queue of
    the key is extended at its tail or gets a new tail, then evicted. *)
Lemma handle_photo_run (now now_c : Z) (message : Message.t) (groups : Store)
    (sizes : list PhotoSize) (size : PhotoSize) :
  _skip_user cfg message = false ->
  Message.photo message = Some sizes ->
  last sizes = Some size ->
  _handle_photo cfg now now_c message groups =
  let key := _key message in
  let q := queue_of groups key in
  let mgid := Message.media_group_id message in
  let fresh :=
    {| media_group_id := mgid; file_ids := [file_id size];
       message_ids := [Message.message_id message]; created_at := now |} in
  let q' :=
    match last q with
    | Some group =>
        if truthy_str mgid && bool_decide (media_group_id group = mgid)
        then removelast q
               ++ [extended group (file_id size) (Message.message_id message)]
        else q ++ [fresh]
    | None => q ++ [fresh]
    end in
  silent (_cleanup cfg now_c key (<[key := q']> groups)).
Proof.
  intros Hauth Hphoto Hsize. unfold _handle_photo, _queue, queue_of.
  rewrite Hauth. destruct (groups !! _key message) as [q|] eqn:E;
    rewrite Hphoto, Hsize; simpl.
  - reflexivity.
  - by rewrite insert_insert_eq.
Qed.

(** A rejected or malformed photo update adds no batch. *)
Lemma queue_registration_batches (key : Key) (groups : Store) (g : PhotoGroup) :
  batch_in (_queue key groups).1 g -> batch_in groups g.
Proof.
  unfold _queue. destruct (groups !! key) eqn:E; simpl; [done |].
  intros (k & q & Hk & Hg). destruct (decide (k = key)) as [->|Hne].
  - rewrite lookup_insert_eq in Hk. injection Hk as <-.
    by apply elem_of_nil in Hg.
  - rewrite lookup_insert_ne in Hk by done. by exists k, q.
Qed.

(** Where the batches of the store come from after a photo update: they were
    there, or are the new one-photo batch, or an old batch with one photo and
    one message id appended. *)
Lemma photo_batches (now now_c : Z) (message : Message.t) (groups : Store)
    (g : PhotoGroup) :
  batch_in (groups_after (_handle_photo cfg now now_c message groups)) g ->
  batch_in groups g
  ∨ (∃ fid, g = {| media_group_id := Message.media_group_id message;
                   file_ids := [fid];
                   message_ids := [Message.message_id message];
                   created_at := now |})
  ∨ (∃ t fid, batch_in groups t
              ∧ g = extended t fid (Message.message_id message)).
Proof.
  destruct (_skip_user cfg message) eqn:Hauth.
  { unfold _handle_photo. rewrite Hauth. simpl. by left. }
  destruct (Message.photo message) as [sizes|] eqn:Hphoto.
  2: { unfold _handle_photo. rewrite Hauth, Hphoto.
       pose proof (queue_registration_batches (_key message) groups g) as Hreg.
       destruct (_queue (_key message) groups). simpl in *. by left; auto. }
  destruct (last sizes) as [size|] eqn:Hsize.
  2: { unfold _handle_photo. rewrite Hauth, Hphoto, Hsize.
       pose proof (queue_registration_batches (_key message) groups g) as Hreg.
       destruct (_queue (_key message) groups). simpl in *. by left; auto. }
  rewrite (handle_photo_run _ _ _ _ _ _ Hauth Hphoto Hsize). cbv zeta. simpl.
  intros (k & q & Hk & Hg).
  destruct (cleanup_batches _ _ _ _ _ _ _ Hk Hg) as (q0 & Hq0 & Hg0).
  destruct (decide (k = _key message)) as [->|Hne].
  2: { rewrite lookup_insert_ne in Hq0 by done. left. by exists k, q0. }
  rewrite lookup_insert_eq in Hq0. injection Hq0 as <-.
  assert (∀ x, x ∈ queue_of groups (_key message) -> batch_in groups x) as Hold.
  { intros x Hx. unfold queue_of in Hx.
    destruct (groups !! _key message) as [q1|] eqn:E; simpl in Hx.
    - by exists (_key message), q1.
    - by apply elem_of_nil in Hx. }
  destruct (last (queue_of groups (_key message))) as [t|] eqn:Hlast.
  - destruct (truthy_str (Message.media_group_id message)
              && bool_decide (media_group_id t = Message.media_group_id message)).
    + pose proof (last_split _ _ Hlast) as Hsplit.
      apply elem_of_app in Hg0 as [Hg0 | Hg0].
      * left. apply Hold. rewrite Hsplit. apply elem_of_app. by left.
      * apply list_elem_of_singleton in Hg0 as ->. right; right.
        exists t, (file_id size). split; [| reflexivity].
        apply Hold. rewrite Hsplit. apply elem_of_app. right.
        by apply list_elem_of_singleton.
    + apply elem_of_app in Hg0 as [Hg0 | Hg0]; [left; by apply Hold |].
      apply list_elem_of_singleton in Hg0 as ->. right; left. by eexists.
  - apply elem_of_app in Hg0 as [Hg0 | Hg0]; [left; by apply Hold |].
    apply list_elem_of_singleton in Hg0 as ->. right; left. by eexists.
Qed.

(** A document update only removes batches. *)
Lemma document_batches (now : Z) (fails : nat -> bool) (message : Message.t)
    (groups : Store) (g : PhotoGroup) :
  batch_in (groups_after (_handle_document cfg now fails message groups)) g ->
  batch_in groups g.
Proof.
  assert (∀ k q, _cleanup cfg now (_key message) groups !! k = Some q ->
            g ∈ q -> batch_in groups g) as Hevicted.
  { intros k q Hk Hg.
    destruct (cleanup_batches _ _ _ _ _ _ _ Hk Hg) as (q0 & Hq0 & Hg0).
    by exists k, q0. }
  destruct (handle_document_cases cfg now fails message groups)
    as [H | [H | (filename & g' & rest & HM)]].
  - by rewrite H.
  - rewrite H. simpl. intros (k & q & Hk & Hg). by apply (Hevicted k q).
  - intros (k & q & Hk & Hg). destruct (decide (k = _key message)) as [->|Hne].
    + pose proof (matched_queue cfg now fails _ _ _ _ _ HM) as Hrest.
      unfold queue_of in Hrest. rewrite Hk in Hrest. simpl in Hrest. subst q.
      destruct HM as (_ & _ & _ & _ & Hfront & _).
      apply queue_of_cons in Hfront.
      apply (Hevicted _ _ Hfront). by apply list_elem_of_further.
    + rewrite (matched_other cfg now fails _ _ _ _ _ _ HM Hne) in Hk.
      by exists k, q.
Qed.

Lemma well_formed_extended (t : PhotoGroup) (fid : string) (mid : Z) :
  well_formed t -> well_formed (extended t fid mid).
Proof.
  intros [Hlen Hpos]. unfold well_formed, extended. simpl.
  rewrite !length_app. simpl. lia.
Qed.

(** An expired batch stays expired for everything created before it. *)
Lemma expired_older (now : Z) (a b : PhotoGroup) :
  created_at a <= created_at b -> expired cfg now b = true ->
  expired cfg now a = true.
Proof. unfold expired. rewrite !Z.gtb_gt. lia. Qed.

(** A non-empty queue of expired batches is dropped with its key. *)
Lemma cleanup_all_expired (now : Z) (key : Key) (groups : Store)
    (q : list PhotoGroup) :
  groups !! key = Some q -> q ≠ [] ->
  Forall (fun g => expired cfg now g = true) q ->
  _cleanup cfg now key groups = delete key groups.
Proof.
  intros Hq Hne Hall. rewrite cleanup_unfold, Hq.
  destruct q as [|g q]; [done |]. by rewrite (pop_expired_all _ _ _ Hall).
Qed.

End PhotoFacts.

(** ** Properties of eviction *)

(** C8. Eviction is idempotent: for every key, store, clock value and TTL, a
    second [_cleanup] with the same clock value leaves the store exactly as
    the first one left it, so it removes no further batch. *)
Theorem C8_eviction_idempotent (cfg : Config) (now : Z) (key : Key)
    (groups : Store) :
  _cleanup cfg now key (_cleanup cfg now key groups)
  = _cleanup cfg now key groups
  ∧ queue_of (_cleanup cfg now key (_cleanup cfg now key groups)) key
    = queue_of (_cleanup cfg now key groups) key.
Proof.
  assert (_cleanup cfg now key (_cleanup cfg now key groups)
          = _cleanup cfg now key groups) as H by apply cleanup_idempotent.
  split; [exact H | by rewrite H].
Qed.

(** C5. [_cleanup] removes exactly the maximal front prefix of expired batches
    (what it removes is expired, the batch it stops at is not), touches no
    other key, and deregisters the key when the queue becomes empty.  In the
    document handler it runs before the match: a call either sends nothing,
    leaving the store as it was or evicted, or it matches the front [g] of the
    evicted queue, which is not expired, and its requests are those of
    [respond] on [g] alone.  The photo handler, which also evicts, sends
    nothing. *)
Theorem C5_eviction_before_match (cfg : Config) (now : Z) (key : Key)
    (groups : Store) :
  let evicted := _cleanup cfg now key groups in
  (∃ gone, queue_of groups key = gone ++ queue_of evicted key
           ∧ Forall (fun g => expired cfg now g = true) gone
           ∧ ∀ g, head (queue_of evicted key) = Some g ->
                  expired cfg now g = false)
  ∧ (∀ k : Key, k ≠ key -> evicted !! k = groups !! k)
  ∧ (queue_of groups key ≠ [] -> queue_of evicted key = [] ->
     evicted !! key = None)
  ∧ (∀ (fails : nat -> bool) (message : Message.t),
       _key message = key ->
       let o := _handle_document cfg now fails message groups in
       (calls o = [] ∧ (groups_after o = groups ∨ groups_after o = evicted))
       ∨ ∃ filename g rest,
           Matches cfg now message groups filename g rest
           ∧ queue_of evicted key = g :: rest
           ∧ expired cfg now g = false
           ∧ calls o = (respond cfg message filename g fails []).2
           ∧ queue_of (groups_after o) key = rest)
  ∧ (∀ (now0 : Z) (message : Message.t),
       calls (_handle_photo cfg now0 now message groups) = []).
Proof.
  cbv zeta. repeat apply conj.
  - destruct (pop_expired_split cfg now (queue_of groups key))
      as [gone [Hq Hall]].
    exists gone. rewrite cleanup_queue. repeat split; [exact Hq | exact Hall |].
    intros g Hg. destruct (pop_expired cfg now (queue_of groups key))
      as [|g' rest] eqn:E; [discriminate |].
    injection Hg as ->. exact (pop_expired_head _ _ _ _ _ E).
  - intros k Hne. by apply cleanup_other.
  - intros Hne Hempty. rewrite cleanup_queue in Hempty.
    rewrite cleanup_lookup, Hempty; [reflexivity |].
    unfold queue_of in Hne. by destruct (groups !! key) as [[|? ?]|].
  - intros fails message <-.
    destruct (handle_document_cases cfg now fails message groups)
      as [H | [H | (filename & g & rest & HM)]].
    + left. rewrite H. simpl. auto.
    + left. rewrite H. simpl. auto.
    + right. exists filename, g, rest.
      pose proof HM as (_ & _ & _ & _ & Hfront & _).
      refine (conj HM (conj Hfront (conj _ (conj _ _)))).
      * rewrite cleanup_queue in Hfront.
        exact (pop_expired_head _ _ _ _ _ Hfront).
      * rewrite (handle_document_matched _ _ _ _ _ _ _ _ HM). simpl.
        by destruct (respond cfg message filename g fails []) as [[[]|e] log].
      * by apply (matched_queue _ _ _ _ _ filename g).
  - intros now0 message. unfold _handle_photo.
    destruct (_skip_user cfg message); [reflexivity |].
    destruct (_queue (_key message) groups) as [groups' queue].
    destruct (Message.photo message) as [sizes|]; [| reflexivity].
    destruct (last sizes); reflexivity.
Qed.

(** ** Properties of the document handler *)

(** C3. A document whose message id is at most the last source message id of
    the front batch of the evicted queue matches nothing: no request is sent,
    no exception escapes, the store is the given one or the evicted one, and
    the evicted queue still starts with that batch. *)
Theorem C3_ordering_rejects (cfg : Config) (now : Z) (fails : nat -> bool)
    (message : Message.t) (groups : Store) (g : PhotoGroup)
    (rest : list PhotoGroup) (l : Z) :
  queue_of (_cleanup cfg now (_key message) groups) (_key message) = g :: rest ->
  last (message_ids g) = Some l ->
  Message.message_id message <= l ->
  let o := _handle_document cfg now fails message groups in
  calls o = [] ∧ raised o = None
  ∧ (groups_after o = groups
     ∨ groups_after o = _cleanup cfg now (_key message) groups)
  ∧ queue_of (_cleanup cfg now (_key message) (groups_after o)) (_key message)
    = g :: rest.
Proof.
  intros Hfront Hlast Hle. cbv zeta.
  destruct (handle_document_cases cfg now fails message groups)
    as [H | [H | (filename & g' & rest' & HM)]].
  - rewrite H. simpl. auto.
  - rewrite H. simpl. rewrite cleanup_idempotent. auto.
  - destruct HM as (_ & _ & _ & _ & Hfront' & Hord).
    rewrite Hfront in Hfront'. injection Hfront' as <- <-.
    assert (not_after g message = true) as Hna
      by (apply not_after_spec; eauto).
    congruence.
Qed.

Lemma C3_ordering_rejects_witness :
  let message := document_message 11 "model.stl" None in
  let groups := pending [album_batch] in
  let o := _handle_document source_config 5 never message groups in
  (queue_of (_cleanup source_config 5 (_key message) groups) (_key message)
   = [album_batch]
   ∧ last (message_ids album_batch) = Some 11
   ∧ Message.message_id message <= 11)
  ∧ calls o = [] ∧ raised o = None
  ∧ (groups_after o = groups
     ∨ groups_after o = _cleanup source_config 5 (_key message) groups)
  ∧ queue_of (_cleanup source_config 5 (_key message) (groups_after o))
      (_key message) = [album_batch].
Proof.
  cbv zeta.
  assert (queue_of (_cleanup source_config 5
                      (_key (document_message 11 "model.stl" None))
                      (pending [album_batch]))
            (_key (document_message 11 "model.stl" None)) = [album_batch])
    as H1 by (vm_compute; reflexivity).
  assert (last (message_ids album_batch) = Some 11) as H2 by reflexivity.
  assert (Message.message_id (document_message 11 "model.stl" None) <= 11)
    as H3 by (simpl; lia).
  split; [auto |].
  exact (C3_ordering_rejects source_config 5 never
           (document_message 11 "model.stl" None) (pending [album_batch])
           album_batch [] 11 H1 H2 H3).
Defined.

(** C1. A document that passes authorization, the extension filter, the queue
    checks, eviction and the ordering check consumes exactly the front batch
    [g] of the evicted queue [g :: rest]: afterwards the key holds [rest] and
    the other keys are as before.  The first request is the repost of [g]: a
    single photo captioned with the file name when [g] has one photo, an album
    in batch order with the caption on its first item only when it has more;
    every later request is a deletion, so nothing else is reposted. *)
Theorem C1_front_batch_reposted (cfg : Config) (now : Z) (fails : nat -> bool)
    (message : Message.t) (groups : Store) (filename : string)
    (g : PhotoGroup) (rest : list PhotoGroup) :
  Matches cfg now message groups filename g rest ->
  let o := _handle_document cfg now fails message groups in
  queue_of (groups_after o) (_key message) = rest
  ∧ (∀ k : Key, k ≠ _key message -> groups_after o !! k = groups !! k)
  ∧ (∀ p, file_ids g = [p] ->
       head (calls o)
       = Some (send_photo (Message.chat_id message) p filename
                 (Message.message_thread_id message)))
  ∧ ((1 < length (file_ids g))%nat ->
       ∃ p ps, file_ids g = p :: ps
         ∧ head (calls o)
           = Some (send_media_group (Message.chat_id message)
                     ({| media := p; caption := Some filename |}
                        :: map (fun f => {| media := f; caption := None |}) ps)
                     (Message.message_thread_id message)))
  ∧ (∀ c, c ∈ tail (calls o) ->
       ∃ mid, c = delete_message (Message.chat_id message) mid).
Proof.
  intros HM. cbv zeta.
  split; [by apply (matched_queue _ _ _ _ _ filename g) |].
  split; [intros k Hne; by apply (matched_other _ _ _ _ _ filename g rest) |].
  rewrite (handle_document_matched _ _ _ _ _ _ _ _ HM). cbv zeta.
  destruct (file_ids g) as [|p ps] eqn:Hids.
  - rewrite run_respond_empty by done. simpl.
    repeat split; [discriminate | lia | intros c Hc; by apply elem_of_nil in Hc].
  - assert (file_ids g ≠ []) as Hne by (rewrite Hids; discriminate).
    rewrite (run_respond _ _ _ _ _ Hne).
    assert (spec_repost message filename g
            = match ps with
              | [] => send_photo (Message.chat_id message) p filename
                        (Message.message_thread_id message)
              | _ => send_media_group (Message.chat_id message)
                       ({| media := p; caption := Some filename |}
                          :: map (fun f => {| media := f; caption := None |}) ps)
                       (Message.message_thread_id message)
              end) as Hrepost.
    { unfold spec_repost. rewrite Hids. by destruct ps. }
    assert (∀ c, c ∈ spec_deletes cfg message g ->
              ∃ mid, c = delete_message (Message.chat_id message) mid) as Hdel.
    { intros c. unfold spec_deletes. rewrite elem_of_app.
      intros [Hc | Hc].
      - destruct (DELETE_ORIGINAL_PHOTO cfg); [| by apply elem_of_nil in Hc].
        apply list_elem_of_fmap in Hc as [mid [-> _]]. by exists mid.
      - destruct (DELETE_ARCHIVE cfg); [| by apply elem_of_nil in Hc].
        apply list_elem_of_singleton in Hc. by eexists. }
    destruct (fails 0%nat); simpl; rewrite Hrepost.
    + repeat split.
      * by intros p0 [= -> ->].
      * intros Hlen. exists p, ps. split; [reflexivity |].
        destruct ps; [simpl in Hlen; lia | reflexivity].
      * intros c Hc. by apply elem_of_nil in Hc.
    + repeat split.
      * by intros p0 [= -> ->].
      * intros Hlen. exists p, ps. split; [reflexivity |].
        destruct ps; [simpl in Hlen; lia | reflexivity].
      * exact Hdel.
Qed.

Lemma C1_front_batch_reposted_witness :
  let message := document_message 12 "model.stl" None in
  let groups := pending [album_batch; single_batch] in
  let o := _handle_document source_config 5 never message groups in
  Matches source_config 5 message groups "model.stl" album_batch [single_batch]
  ∧ queue_of (groups_after o) (_key message) = [single_batch]
  ∧ head (calls o)
    = Some (send_media_group 1
              [ {| media := "P1"; caption := Some "model.stl" |};
                {| media := "P2"; caption := None |} ] None).
Proof.
  cbv zeta.
  assert (Matches source_config 5 (document_message 12 "model.stl" None)
            (pending [album_batch; single_batch]) "model.stl" album_batch
            [single_batch]) as HM.
  { repeat apply conj; try (vm_compute; reflexivity); discriminate. }
  split; [exact HM |].
  pose proof (C1_front_batch_reposted source_config 5 never
                (document_message 12 "model.stl" None)
                (pending [album_batch; single_batch]) "model.stl" album_batch
                [single_batch] HM) as (Hq & _ & _ & Halbum & _).
  split; [exact Hq |].
  destruct Halbum as (p & ps & Hids & Hhead); [simpl; lia |].
  injection Hids as <- <-. exact Hhead.
Defined.

(** C9. After a match whose repost went through, the deletions are attempted
    in full whatever the transport answers to each of them: the requests are
    the repost, then one deletion per source message id of the batch (when
    [DELETE_ORIGINAL_PHOTO]), then the deletion of the document message (when
    [DELETE_ARCHIVE]), and no exception leaves the handler.  The oracle is
    arbitrary beyond its first answer, so no failed deletion stops a later
    one. *)
Theorem C9_deletes_best_effort (cfg : Config) (now : Z) (fails : nat -> bool)
    (message : Message.t) (groups : Store) (filename : string)
    (g : PhotoGroup) (rest : list PhotoGroup) :
  Matches cfg now message groups filename g rest ->
  file_ids g ≠ [] ->
  fails 0%nat = false ->
  let o := _handle_document cfg now fails message groups in
  raised o = None
  ∧ calls o
    = spec_repost message filename g
      :: (if DELETE_ORIGINAL_PHOTO cfg
          then map (delete_message (Message.chat_id message)) (message_ids g)
          else [])
      ++ (if DELETE_ARCHIVE cfg
          then [delete_message (Message.chat_id message)
                  (Message.message_id message)]
          else []).
Proof.
  intros HM Hne Hsent. cbv zeta.
  rewrite (handle_document_matched _ _ _ _ _ _ _ _ HM). cbv zeta.
  rewrite (run_respond _ _ _ _ _ Hne), Hsent. simpl. split; reflexivity.
Qed.

Lemma C9_deletes_best_effort_witness :
  let message := document_message 12 "model.stl" None in
  let groups := pending [album_batch] in
  let fails := fun n : nat => negb (n =? 0)%nat in
  let o := _handle_document source_config 5 fails message groups in
  (Matches source_config 5 message groups "model.stl" album_batch []
   ∧ file_ids album_batch ≠ [] ∧ fails 0%nat = false)
  ∧ raised o = None
  ∧ calls o
    = [ send_media_group 1
          [ {| media := "P1"; caption := Some "model.stl" |};
            {| media := "P2"; caption := None |} ] None;
        delete_message 1 10; delete_message 1 11; delete_message 1 12 ].
Proof.
  cbv zeta.
  assert (Matches source_config 5 (document_message 12 "model.stl" None)
            (pending [album_batch]) "model.stl" album_batch []) as HM.
  { repeat apply conj; try (vm_compute; reflexivity); discriminate. }
  assert (file_ids album_batch ≠ []) as Hne by discriminate.
  split; [auto |].
  exact (C9_deletes_best_effort source_config 5
           (fun n : nat => negb (n =? 0)%nat)
           (document_message 12 "model.stl" None) (pending [album_batch])
           "model.stl" album_batch [] HM Hne eq_refl).
Defined.

(** ** Creation order under a monotone clock *)

Section OrderFacts.
Variable cfg : Config.

Lemma queue_ordered_mono (T T' : Z) (q : list PhotoGroup) :
  T <= T' -> queue_ordered T q -> queue_ordered T' q.
Proof.
  intros HT [Hs Hb]. split; [exact Hs |].
  eapply Forall_impl; [exact Hb |]. simpl. intros g Hg. lia.
Qed.

Lemma queue_ordered_suffix (T : Z) (l1 l2 : list PhotoGroup) :
  queue_ordered T (l1 ++ l2) -> queue_ordered T l2.
Proof.
  intros [Hs Hb]. split.
  - by apply StronglySorted_app_1_r in Hs.
  - by apply Forall_app in Hb as [_ Hb].
Qed.

Lemma queue_ordered_snoc (T : Z) (q : list PhotoGroup) (g : PhotoGroup) :
  queue_ordered T q -> T <= created_at g ->
  queue_ordered (created_at g) (q ++ [g]).
Proof.
  intros [Hs Hb] HT. split.
  - apply StronglySorted_app. repeat split; [| exact Hs | by repeat constructor].
    intros x1 x2 Hx1 Hx2. apply list_elem_of_singleton in Hx2 as ->.
    rewrite Forall_forall in Hb. specialize (Hb x1 Hx1).
    unfold by_creation. lia.
  - apply Forall_app. split; [| repeat constructor; lia].
    eapply Forall_impl; [exact Hb |]. simpl. intros x Hx. lia.
Qed.

Lemma queue_ordered_retail (T : Z) (l : list PhotoGroup) (t t' : PhotoGroup) :
  created_at t' = created_at t ->
  queue_ordered T (l ++ [t]) -> queue_ordered T (l ++ [t']).
Proof.
  intros Heq [Hs Hb]. apply StronglySorted_app in Hs as (Hcross & Hl & _).
  apply Forall_app in Hb as [Hbl Hbt]. split.
  - apply StronglySorted_app. repeat split; [| exact Hl | by repeat constructor].
    intros x1 x2 Hx1 Hx2. apply list_elem_of_singleton in Hx2 as ->.
    unfold by_creation. rewrite Heq. apply (Hcross x1 t Hx1).
    by apply list_elem_of_singleton.
  - apply Forall_app. split; [exact Hbl |].
    apply Forall_singleton. rewrite Forall_singleton in Hbt. simpl in *. lia.
Qed.

Lemma store_ordered_mono (T T' : Z) (groups : Store) :
  T <= T' -> store_ordered T groups -> store_ordered T' groups.
Proof.
  intros HT H key q Hq. apply (queue_ordered_mono T); [exact HT |].
  by apply (H key).
Qed.

Lemma store_ordered_insert (T : Z) (key : Key) (q : list PhotoGroup)
    (groups : Store) :
  store_ordered T groups -> queue_ordered T q ->
  store_ordered T (<[key := q]> groups).
Proof.
  intros H Hq k q' Hk. destruct (decide (k = key)) as [->|Hne].
  - rewrite lookup_insert_eq in Hk. by injection Hk as <-.
  - rewrite lookup_insert_ne in Hk by done. by apply (H k).
Qed.

Lemma store_ordered_delete (T : Z) (key : Key) (groups : Store) :
  store_ordered T groups -> store_ordered T (delete key groups).
Proof.
  intros H k q Hk. destruct (decide (k = key)) as [->|Hne].
  - by rewrite lookup_delete_eq in Hk.
  - rewrite lookup_delete_ne in Hk by done. by apply (H k).
Qed.

Lemma store_ordered_cleanup (T now : Z) (key : Key) (groups : Store) :
  store_ordered T groups -> store_ordered T (_cleanup cfg now key groups).
Proof.
  intros H. rewrite cleanup_unfold.
  destruct (groups !! key) as [[|g q]|] eqn:E; try exact H.
  destruct (pop_expired_split cfg now (g :: q)) as [gone [Hq _]].
  destruct (pop_expired cfg now (g :: q)) as [|g' q'] eqn:Ep.
  - by apply store_ordered_delete.
  - apply store_ordered_insert; [exact H |].
    apply (queue_ordered_suffix T gone). rewrite <- Hq. by apply (H key).
Qed.

Lemma store_ordered_queue (T : Z) (key : Key) (groups : Store) :
  store_ordered T groups -> queue_ordered T (queue_of groups key).
Proof.
  intros H. unfold queue_of. destruct (groups !! key) as [q|] eqn:E; simpl.
  - by apply (H key).
  - split; constructor.
Qed.

Lemma store_ordered_photo (T now now_c : Z) (message : Message.t)
    (groups : Store) :
  store_ordered T groups -> T <= now -> now <= now_c ->
  store_ordered now_c
    (groups_after (_handle_photo cfg now now_c message groups)).
Proof.
  intros H HT Hc.
  assert (store_ordered now_c groups) as H'
    by (apply (store_ordered_mono T); [lia | exact H]).
  assert (∀ key, store_ordered now_c (_queue key groups).1) as Hreg.
  { intros key. unfold _queue. destruct (groups !! key); simpl; [exact H' |].
    apply store_ordered_insert; [exact H' | split; constructor]. }
  destruct (_skip_user cfg message) eqn:Hauth.
  { unfold _handle_photo. by rewrite Hauth. }
  destruct (Message.photo message) as [sizes|] eqn:Hphoto.
  2: { unfold _handle_photo. rewrite Hauth, Hphoto.
       specialize (Hreg (_key message)).
       by destruct (_queue (_key message) groups). }
  destruct (last sizes) as [size|] eqn:Hsize.
  2: { unfold _handle_photo. rewrite Hauth, Hphoto, Hsize.
       specialize (Hreg (_key message)).
       by destruct (_queue (_key message) groups). }
  rewrite (handle_photo_run _ _ _ _ _ _ _ Hauth Hphoto Hsize). cbv zeta. simpl.
  apply store_ordered_cleanup. apply store_ordered_insert; [exact H' |].
  pose proof (store_ordered_queue T (_key message) groups H) as Hq.
  assert (queue_ordered now_c
            (queue_of groups (_key message)
               ++ [ {| media_group_id := Message.media_group_id message;
                       file_ids := [file_id size];
                       message_ids := [Message.message_id message];
                       created_at := now |} ])) as Hfresh.
  { apply (queue_ordered_mono now); [exact Hc |].
    by apply (queue_ordered_snoc T _ {| created_at := now |}). }
  destruct (last (queue_of groups (_key message))) as [t|] eqn:Hlast;
    [| exact Hfresh].
  destruct (truthy_str (Message.media_group_id message)
            && bool_decide (media_group_id t = Message.media_group_id message));
    [| exact Hfresh].
  apply (queue_ordered_retail now_c _ t); [reflexivity |].
  rewrite <- (last_split _ _ Hlast).
  apply (queue_ordered_mono T); [lia | exact Hq].
Qed.

Lemma store_ordered_document (T now : Z) (fails : nat -> bool)
    (message : Message.t) (groups : Store) :
  store_ordered T groups ->
  store_ordered T
    (groups_after (_handle_document cfg now fails message groups)).
Proof.
  intros H.
  pose proof (store_ordered_cleanup T now (_key message) groups H) as He.
  destruct (handle_document_cases cfg now fails message groups)
    as [Hs | [Hs | (filename & g & rest & HM)]].
  - by rewrite Hs.
  - by rewrite Hs.
  - rewrite (handle_document_matched _ _ _ _ _ _ _ _ HM). cbv zeta.
    destruct HM as (_ & _ & _ & _ & Hfront & _).
    apply queue_of_cons in Hfront.
    assert (queue_ordered T rest) as Hrest
      by (apply (queue_ordered_suffix T [g]); by apply (He (_key message))).
    destruct (respond cfg message filename g fails []) as [[[]|e] log]; simpl.
    + destruct rest; [by apply store_ordered_delete |].
      by apply store_ordered_insert.
    + by apply store_ordered_insert.
Qed.

(** Under a clock that never goes back every queue is in nondecreasing
    creation order. *)
Lemma clocked_sorted (T : Z) (groups : Store) (key : Key) :
  clocked cfg T groups -> Sorted by_creation (queue_of groups key).
Proof.
  intros Hrun. apply StronglySorted_Sorted.
  apply (store_ordered_queue T key groups).
  clear key. induction Hrun as [T | T now now_c message groups _ IH HT Hc
                                  | T now fails message groups _ IH HT].
  - intros key q Hq. by rewrite lookup_empty in Hq.
  - by apply (store_ordered_photo T).
  - apply (store_ordered_mono T); [exact HT |].
    by apply store_ordered_document.
Qed.

End OrderFacts.

(** ** Properties of authorization and of the photo handler *)

(** C6. [_skip_user] lets an update through exactly when no owner is
    configured or the update carries a sender whose id is the owner's; so with
    an owner, updates of other senders and updates without sender are skipped,
    and without an owner nothing is skipped.  A skipped update, photo or
    document, returns the store it was given, sends nothing and raises
    nothing.  An update that is let through is processed as it is when no
    owner is configured.  The handlers therefore act exactly for the
    authorized senders: on a conversation without queue a photo registers its
    batch if and only if its sender is authorized, and a document that finds a
    batch to caption sends requests if and only if its sender is authorized,
    in which case it consumes the batch and reposts it. *)
Theorem C6_authorization (cfg : Config) (message : Message.t) :
  (_skip_user cfg message = false <->
   OWNER_ID cfg = None
   ∨ ∃ u, Message.from_user message = Some u ∧ OWNER_ID cfg = Some (id u))
  ∧ (OWNER_ID cfg = None -> _skip_user cfg message = false)
  ∧ (OWNER_ID cfg ≠ None -> Message.from_user message = None ->
     _skip_user cfg message = true)
  ∧ (_skip_user cfg message = true ->
     ∀ (now now_c : Z) (fails : nat -> bool) (groups : Store),
       _handle_photo cfg now now_c message groups = silent groups
       ∧ _handle_document cfg now fails message groups = silent groups)
  ∧ (_skip_user cfg message = false ->
     ∀ (now now_c : Z) (fails : nat -> bool) (groups : Store),
       _handle_photo cfg now now_c message groups
       = _handle_photo (without_owner cfg) now now_c message groups
       ∧ _handle_document cfg now fails message groups
         = _handle_document (without_owner cfg) now fails message groups)
  ∧ (∀ (now now_c : Z) (groups : Store) (sizes : list PhotoSize)
       (size : PhotoSize),
       groups !! _key message = None ->
       Message.photo message = Some sizes ->
       last sizes = Some size ->
       now_c - now <= PHOTO_TTL cfg ->
       (authorized cfg message ->
        groups_after (_handle_photo cfg now now_c message groups)
          !! _key message
        = Some [ {| media_group_id := Message.media_group_id message;
                    file_ids := [file_id size];
                    message_ids := [Message.message_id message];
                    created_at := now |} ])
       ∧ (is_Some (groups_after (_handle_photo cfg now now_c message groups)
                     !! _key message)
          <-> authorized cfg message))
  ∧ (∀ (now : Z) (fails : nat -> bool) (groups : Store) (filename : string)
       (g : PhotoGroup) (rest : list PhotoGroup),
       Message.document message = Some {| file_name := Some filename |} ->
       filename ≠ EmptyString ->
       extension filename ∈ ALLOWED_EXTENSIONS ->
       queue_of (_cleanup cfg now (_key message) groups) (_key message)
       = g :: rest ->
       not_after g message = false ->
       file_ids g ≠ [] ->
       let o := _handle_document cfg now fails message groups in
       (authorized cfg message ->
        queue_of (groups_after o) (_key message) = rest
        ∧ head (calls o) = Some (spec_repost message filename g))
       ∧ (calls o ≠ [] <-> authorized cfg message)).
Proof.
  assert (_skip_user cfg message = false <-> authorized cfg message) as Hiff.
  { unfold _skip_user, authorized.
    destruct (OWNER_ID cfg) as [owner|];
      destruct (Message.from_user message) as [u|].
    - destruct (Z.eqb_spec (id u) owner) as [Heq|Hne]; simpl.
      + split; [| done]. intros _. right. exists u. by rewrite Heq.
      + split; [done |].
        intros [H | (u' & [= <-] & [= H])]; [done | congruence].
    - split; [done |]. intros [H | (u' & H & _)]; done.
    - split; [by left | done].
    - split; [by left | done]. }
  assert (_skip_user cfg message = true ->
          ∀ (now now_c : Z) (fails : nat -> bool) (groups : Store),
            _handle_photo cfg now now_c message groups = silent groups
            ∧ _handle_document cfg now fails message groups = silent groups)
    as Hskip.
  { intros H now now_c fails groups.
    unfold _handle_photo, _handle_document. by rewrite H. }
  refine (conj Hiff (conj _ (conj _ (conj Hskip (conj _ (conj _ _)))))).
  - intros H. apply Hiff. by left.
  - intros Howner Hnone. unfold _skip_user. rewrite Hnone.
    by destruct (OWNER_ID cfg).
  - intros H now now_c fails groups.
    unfold _handle_photo, _handle_document. rewrite H. split; reflexivity.
  - intros now now_c groups sizes size Hkey Hphoto Hsize Hage.
    assert (authorized cfg message ->
            groups_after (_handle_photo cfg now now_c message groups)
              !! _key message
            = Some [ {| media_group_id := Message.media_group_id message;
                        file_ids := [file_id size];
                        message_ids := [Message.message_id message];
                        created_at := now |} ]) as Hstored.
    { intros Hauth. apply Hiff in Hauth.
      rewrite (handle_photo_run _ _ _ _ _ _ _ Hauth Hphoto Hsize). cbv zeta.
      unfold queue_of. rewrite Hkey. simpl.
      rewrite cleanup_unfold, lookup_insert_eq. cbn [pop_expired].
      assert (expired cfg now_c
                {| media_group_id := Message.media_group_id message;
                   file_ids := [file_id size];
                   message_ids := [Message.message_id message];
                   created_at := now |} = false) as ->
        by (unfold expired; simpl; rewrite Z.gtb_ltb; apply Z.ltb_ge; lia).
      by rewrite lookup_insert_eq. }
    split; [exact Hstored |]. split.
    + intros Hsome. apply Hiff.
      destruct (_skip_user cfg message) eqn:Hs; [| reflexivity].
      destruct (Hskip eq_refl now now_c (fun _ => false) groups) as [Hp _].
      rewrite Hp in Hsome. simpl in Hsome. rewrite Hkey in Hsome.
      by destruct Hsome.
    + intros Hauth. rewrite (Hstored Hauth). by eexists.
  - intros now fails groups filename g rest Hdoc Hname Hext Hfront Hord Hne.
    cbv zeta.
    assert (authorized cfg message ->
            queue_of (groups_after
                        (_handle_document cfg now fails message groups))
              (_key message) = rest
            ∧ head (calls (_handle_document cfg now fails message groups))
              = Some (spec_repost message filename g)) as Hdone.
    { intros Hauth. apply Hiff in Hauth.
      assert (Matches cfg now message groups filename g rest) as HM
        by (repeat split; assumption).
      split; [by apply (matched_queue _ _ _ _ _ filename g) |].
      rewrite (handle_document_matched _ _ _ _ _ _ _ _ HM). cbv zeta.
      rewrite (run_respond _ _ _ _ _ Hne). by destruct (fails 0%nat). }
    split; [exact Hdone |]. split.
    + intros Hcalls. apply Hiff.
      destruct (_skip_user cfg message) eqn:Hs; [| reflexivity].
      destruct (Hskip eq_refl now now fails groups) as [_ Hd].
      by rewrite Hd in Hcalls.
    + intros Hauth. destruct (Hdone Hauth) as [_ Hhead].
      intros Hnil. by rewrite Hnil in Hhead.
Qed.

Lemma C6_authorization_witness :
  let cfg := {| OWNER_ID := Some 1; PHOTO_TTL := 600000000;
                DELETE_ORIGINAL_PHOTO := true; DELETE_ARCHIVE := true |} in
  let stranger := photo_message 10 (Some "g1") "P1" (Some {| id := 2 |}) in
  let owner := photo_message 10 (Some "g1") "P1" (Some {| id := 1 |}) in
  let nobody := photo_message 10 (Some "g1") "P1" None in
  (_skip_user cfg stranger = true
   ∧ _handle_photo cfg 0 0 stranger ∅ = silent ∅
   ∧ _handle_document cfg 0 never stranger ∅ = silent ∅)
  ∧ (authorized cfg owner
     ∧ is_Some (groups_after (_handle_photo cfg 0 0 owner ∅) !! (1, None)))
  ∧ (¬ authorized cfg nobody
     ∧ ¬ is_Some (groups_after (_handle_photo cfg 0 0 nobody ∅) !! (1, None)))
  ∧ (authorized source_config nobody
     ∧ is_Some (groups_after (_handle_photo source_config 0 0 nobody ∅)
                  !! (1, None))).
Proof.
  cbv zeta.
  pose (cfg := {| OWNER_ID := Some 1; PHOTO_TTL := 600000000;
                  DELETE_ORIGINAL_PHOTO := true; DELETE_ARCHIVE := true |}).
  pose (sizes := [ {| file_id := "thumb" |}; {| file_id := "P1" |} ]).
  assert (0 - 0 <= 600000000) as Hage by lia.
  split.
  { split; [reflexivity |].
    exact (proj1 (proj2 (proj2 (proj2
             (C6_authorization cfg
                (photo_message 10 (Some "g1") "P1" (Some {| id := 2 |}))))))
             eq_refl 0 0 never ∅). }
  split.
  { assert (authorized cfg
              (photo_message 10 (Some "g1") "P1" (Some {| id := 1 |})))
      as Hauth by (right; by eexists).
    split; [exact Hauth |].
    destruct (proj1 (proj2 (proj2 (proj2 (proj2 (proj2
                (C6_authorization cfg
                   (photo_message 10 (Some "g1") "P1" (Some {| id := 1 |}))))))))
                0 0 ∅ sizes {| file_id := "P1" |}
                (lookup_empty _) eq_refl eq_refl Hage) as [_ [_ Hback]].
    exact (Hback Hauth). }
  split.
  { assert (¬ authorized cfg (photo_message 10 (Some "g1") "P1" None))
      as Hno.
    { intros [H | (u & H & _)]; discriminate. }
    split; [exact Hno |].
    destruct (proj1 (proj2 (proj2 (proj2 (proj2 (proj2
                (C6_authorization cfg
                   (photo_message 10 (Some "g1") "P1" None)))))))
                0 0 ∅ sizes {| file_id := "P1" |}
                (lookup_empty _) eq_refl eq_refl Hage) as [_ [Hthere _]].
    intros Hsome. exact (Hno (Hthere Hsome)). }
  assert (authorized source_config (photo_message 10 (Some "g1") "P1" None))
    as Hauth by (by left).
  split; [exact Hauth |].
  destruct (proj1 (proj2 (proj2 (proj2 (proj2 (proj2
              (C6_authorization source_config
                 (photo_message 10 (Some "g1") "P1" None)))))))
              0 0 ∅ sizes {| file_id := "P1" |}
              (lookup_empty _) eq_refl eq_refl Hage) as [_ [_ Hback]].
  exact (Hback Hauth).
Defined.

(** C4. For a photo from an authorized sender, with [q] the queue of its key:
    when the tail of [q] exists, has a non-empty group id and that id is the
    update's, the handler appends the file id and the message id to that tail
    and leaves the batches before it as they are; in every other case it
    appends to [q] a new batch holding the update's group id, file id, message
    id and the clock value.  Eviction follows in both cases, and nothing is
    sent. *)
Theorem C4_photo_extends_tail_only (cfg : Config) (now now_c : Z)
    (message : Message.t) (groups : Store) (sizes : list PhotoSize)
    (size : PhotoSize) :
  _skip_user cfg message = false ->
  Message.photo message = Some sizes ->
  last sizes = Some size ->
  let key := _key message in
  let q := queue_of groups key in
  let mgid := Message.media_group_id message in
  let o := _handle_photo cfg now now_c message groups in
  calls o = [] ∧ raised o = None
  ∧ (∀ t, spec_extends q mgid t ->
       groups_after o
       = _cleanup cfg now_c key
           (<[key := removelast q
                       ++ [extended t (file_id size)
                             (Message.message_id message)]]> groups))
  ∧ ((∀ t, ¬ spec_extends q mgid t) ->
       groups_after o
       = _cleanup cfg now_c key
           (<[key := q ++ [ {| media_group_id := mgid;
                               file_ids := [file_id size];
                               message_ids := [Message.message_id message];
                               created_at := now |} ]]> groups)).
Proof.
  intros Hauth Hphoto Hsize. cbv zeta.
  rewrite (handle_photo_run _ _ _ _ _ _ _ Hauth Hphoto Hsize). cbv zeta. simpl.
  repeat split.
  - intros t (Hlast & Htruthy & Heq). rewrite Hlast.
    rewrite <- Heq, Htruthy, bool_decide_eq_true_2 by done. reflexivity.
  - intros Hnone.
    destruct (last (queue_of groups (_key message))) as [t|] eqn:Hlast;
      [| reflexivity].
    destruct (truthy_str (Message.media_group_id message)) eqn:Htruthy;
      [| reflexivity].
    destruct (bool_decide_reflect
                (media_group_id t = Message.media_group_id message))
      as [Heq|Hne]; [| reflexivity].
    exfalso. apply (Hnone t). unfold spec_extends. by rewrite Heq.
Qed.

Lemma C4_photo_extends_tail_only_witness :
  let message := photo_message 12 (Some "g1") "P3" None in
  let groups := pending [single_batch; album_batch] in
  (_skip_user source_config message = false
   ∧ Message.photo message
     = Some [ {| file_id := "thumb" |}; {| file_id := "P3" |} ]
   ∧ last [ {| file_id := "thumb" |}; {| file_id := "P3" |} ]
     = Some {| file_id := "P3" |})
  ∧ groups_after (_handle_photo source_config 7 8 message groups)
    = pending [ single_batch;
                {| media_group_id := Some "g1";
                   file_ids := ["P1"; "P2"; "P3"];
                   message_ids := [10; 11; 12]; created_at := 0 |} ].
Proof.
  cbv zeta. split; [repeat split |].
  pose proof (C4_photo_extends_tail_only source_config 7 8
                (photo_message 12 (Some "g1") "P3" None)
                (pending [single_batch; album_batch])
                [ {| file_id := "thumb" |}; {| file_id := "P3" |} ]
                {| file_id := "P3" |} eq_refl eq_refl eq_refl)
    as (_ & _ & Hext & _).
  rewrite (Hext album_batch); [vm_compute; reflexivity |].
  repeat split.
Defined.

(** C10. A photo that extends a tail batch already expired for the clock
    value read by the eviction, in a queue ordered by nondecreasing
    [created_at], is evicted with the whole queue in the same call: the
    handler returns the store without the key, so the photo just received is
    nowhere under it, and sends nothing. *)
Theorem C10_extension_of_expired_tail_is_evicted (cfg : Config)
    (now now_c : Z) (message : Message.t) (groups : Store)
    (sizes : list PhotoSize) (size : PhotoSize) (t : PhotoGroup) :
  _skip_user cfg message = false ->
  Message.photo message = Some sizes ->
  last sizes = Some size ->
  truthy_str (Message.media_group_id message) = true ->
  last (queue_of groups (_key message)) = Some t ->
  media_group_id t = Message.media_group_id message ->
  Sorted by_creation (queue_of groups (_key message)) ->
  expired cfg now_c t = true ->
  _handle_photo cfg now now_c message groups
  = silent (delete (_key message) groups)
  ∧ queue_of (groups_after (_handle_photo cfg now now_c message groups))
      (_key message) = [].
Proof.
  intros Hauth Hphoto Hsize Htruthy Hlast Heq Hsorted Hexp.
  assert (_handle_photo cfg now now_c message groups
          = silent (delete (_key message) groups)) as Hrun.
  { rewrite (handle_photo_run _ _ _ _ _ _ _ Hauth Hphoto Hsize). cbv zeta.
    rewrite Hlast, Htruthy, bool_decide_eq_true_2 by done. simpl. f_equal.
    rewrite (cleanup_all_expired cfg now_c (_key message) _
               (removelast (queue_of groups (_key message))
                  ++ [extended t (file_id size) (Message.message_id message)])).
    - apply delete_insert_eq.
    - apply lookup_insert_eq.
    - by destruct (removelast (queue_of groups (_key message))).
    - apply Forall_app. split; [| by repeat constructor].
      apply Forall_forall. intros x Hx.
      apply (expired_older cfg now_c x t); [| exact Hexp].
      apply Sorted.Sorted_StronglySorted in Hsorted;
        [| intros a b c; unfold by_creation; lia].
      rewrite (last_split _ _ Hlast) in Hsorted.
      apply (StronglySorted_app_1_elem_of by_creation _ _ x t Hsorted Hx).
      by apply list_elem_of_singleton. }
  split; [exact Hrun |].
  rewrite Hrun. unfold queue_of. simpl. by rewrite lookup_delete_eq.
Qed.

Lemma C10_extension_of_expired_tail_is_evicted_witness :
  let message := photo_message 12 (Some "g1") "P3" None in
  let groups := pending [single_batch; album_batch] in
  _handle_photo source_config 700000000 700000001 message groups = silent ∅.
Proof.
  cbv zeta.
  pose proof (C10_extension_of_expired_tail_is_evicted source_config
                700000000 700000001 (photo_message 12 (Some "g1") "P3" None)
                (pending [single_batch; album_batch])
                [ {| file_id := "thumb" |}; {| file_id := "P3" |} ]
                {| file_id := "P3" |} album_batch
                eq_refl eq_refl eq_refl eq_refl eq_refl eq_refl) as H.
  destruct H as [H _].
  - repeat constructor; unfold by_creation; simpl; lia.
  - reflexivity.
  - rewrite H. vm_compute. reflexivity.
Defined.

(** ** The batch invariant *)

(** C7. In every store the bot can reach, every batch has as many file ids as
    message ids, and at least one.  The invariant is kept because a photo
    update only leaves batches as they were, adds a batch with one file id and
    one message id, or appends one of each to a batch, while a document update
    and [_cleanup] only remove batches. *)
Theorem C7_batches_well_formed (cfg : Config) :
  (∀ groups : Store, reachable cfg groups ->
     ∀ g, batch_in groups g -> well_formed g)
  ∧ (∀ (now now_c : Z) (message : Message.t) (groups : Store) (g : PhotoGroup),
       batch_in (groups_after (_handle_photo cfg now now_c message groups)) g ->
       batch_in groups g
       ∨ (∃ fid, g = {| media_group_id := Message.media_group_id message;
                        file_ids := [fid];
                        message_ids := [Message.message_id message];
                        created_at := now |})
       ∨ (∃ t fid, batch_in groups t
                   ∧ g = extended t fid (Message.message_id message)))
  ∧ (∀ (now : Z) (fails : nat -> bool) (message : Message.t) (groups : Store)
       (g : PhotoGroup),
       batch_in (groups_after (_handle_document cfg now fails message groups)) g ->
       batch_in groups g)
  ∧ (∀ (now : Z) (key : Key) (groups : Store) (g : PhotoGroup),
       batch_in (_cleanup cfg now key groups) g -> batch_in groups g).
Proof.
  repeat apply conj.
  - induction 1 as [|u groups Hreach IH]; intros g Hg.
    + destruct Hg as (k & q & Hk & _). by rewrite lookup_empty in Hk.
    + destruct u as [now now_c message | now fails message]; simpl in Hg.
      * apply photo_batches in Hg
          as [Hold | [(fid & ->) | (t & fid & Ht & ->)]].
        -- by apply IH.
        -- split; simpl; lia.
        -- apply well_formed_extended. by apply IH.
      * apply document_batches in Hg. by apply IH.
  - apply photo_batches.
  - apply document_batches.
  - intros now key groups g (k & q & Hk & Hg).
    destruct (cleanup_batches _ _ _ _ _ _ _ Hk Hg) as (q0 & Hq0 & Hg0).
    by exists k, q0.
Qed.

Lemma C7_batches_well_formed_witness :
  let groups :=
    groups_after
      (handle source_config
         (PhotoUpdate 1 1 (photo_message 11 (Some "g1") "P2" None))
         (groups_after
            (handle source_config
               (PhotoUpdate 0 0 (photo_message 10 (Some "g1") "P1" None)) ∅))) in
  reachable source_config groups
  ∧ batch_in groups album_batch
  ∧ well_formed album_batch.
Proof.
  cbv zeta.
  assert (reachable source_config
            (groups_after
               (handle source_config
                  (PhotoUpdate 1 1 (photo_message 11 (Some "g1") "P2" None))
                  (groups_after
                     (handle source_config
                        (PhotoUpdate 0 0
                           (photo_message 10 (Some "g1") "P1" None)) ∅)))))
    as Hreach by (do 2 apply reachable_handle; apply reachable_start).
  assert (batch_in
            (groups_after
               (handle source_config
                  (PhotoUpdate 1 1 (photo_message 11 (Some "g1") "P2" None))
                  (groups_after
                     (handle source_config
                        (PhotoUpdate 0 0
                           (photo_message 10 (Some "g1") "P1" None)) ∅))))
            album_batch) as Hin.
  { exists (1, None), [album_batch]. split; [vm_compute; reflexivity |].
    by apply list_elem_of_singleton. }
  refine (conj Hreach (conj Hin _)).
  exact (proj1 (C7_batches_well_formed source_config) _ Hreach _ Hin).
Defined.

(** ** The extension filter *)

(** Of the filter, this much holds: a named document whose computed extension
    is not allowed is dropped. *)
Lemma unlisted_extension_rejected (cfg : Config) (now : Z)
    (fails : nat -> bool) (message : Message.t) (groups : Store)
    (filename : string) :
  Message.document message = Some {| file_name := Some filename |} ->
  extension filename ∉ ALLOWED_EXTENSIONS ->
  _handle_document cfg now fails message groups = silent groups.
Proof.
  intros Hdoc Hext. unfold _handle_document. rewrite Hdoc. simpl.
  destruct (_skip_user cfg message); [reflexivity |].
  destruct filename as [|c filename]; [reflexivity |]. simpl.
  by rewrite (bool_decide_eq_false_2 _ Hext).
Qed.

(** When the name has a dot, the computed extension is the lowered text after
    the last one. *)
Lemma extension_after_last_dot (s h t : string) :
  rsplit_at_dot s = Some (h, t) ->
  extension s = lower t ∧ s = h +:+ "." +:+ t ∧ rsplit_at_dot t = None.
Proof.
  unfold extension, rsplit_dot.
  revert h t. induction s as [|c s IH]; intros h t; simpl; [discriminate |].
  destruct (rsplit_at_dot s) as [[h' t']|] eqn:E.
  - intros [= <- <-]. destruct (IH h' t' eq_refl) as (_ & Hs & Hnone).
    exact (conj eq_refl (conj (f_equal (String c) Hs) Hnone)).
  - destruct (Ascii.eqb_spec c ".") as [->|Hne]; [| discriminate].
    intros [= <- <-]. exact (conj eq_refl (conj eq_refl E)).
Qed.

(** Without a dot, the computed extension is the whole lowered name. *)
Lemma extension_without_dot (s : string) :
  rsplit_at_dot s = None -> extension s = lower s.
Proof. unfold extension, rsplit_dot. by intros ->. Qed.

(** Scenario D of the spec. *)
Example scenario_D :
  _handle_document source_config 5 never (document_message 12 "readme.txt" None)
    (pending [album_batch])
  = silent (pending [album_batch]).
Proof. vm_compute. reflexivity. Qed.

(** C2. The name "zip" has no dot, hence no extension, yet the handler takes
    the whole name for the extension, finds it allowed and reposts the pending
    batch under the caption "zip" instead of dropping the document. *)
Theorem C2_name_without_extension_is_accepted :
  let message := document_message 6 "zip" None in
  let o := _handle_document source_config 5 never message
             (pending [single_batch]) in
  rsplit_at_dot "zip" = None
  ∧ extension "zip" = "zip"
  ∧ calls o = [ send_photo 1 "P1" "zip" None;
                delete_message 1 5; delete_message 1 6 ]
  ∧ groups_after o = ∅.
Proof. cbv zeta. repeat split; vm_compute; reflexivity. Qed.

(** ** Further properties of the handlers *)

Section Locality.
Variable cfg : Config.

Lemma photo_other (now now_c : Z) (message : Message.t) (groups : Store)
    (k : Key) :
  k ≠ _key message ->
  groups_after (_handle_photo cfg now now_c message groups) !! k = groups !! k.
Proof.
  intros Hne. unfold _handle_photo.
  destruct (_skip_user cfg message); [reflexivity |].
  assert ((_queue (_key message) groups).1 !! k = groups !! k) as Hreg.
  { unfold _queue. destruct (groups !! _key message); simpl; [reflexivity |].
    by rewrite lookup_insert_ne. }
  destruct (_queue (_key message) groups) as [groups' queue]. simpl in Hreg.
  destruct (Message.photo message) as [sizes|]; [| exact Hreg].
  destruct (last sizes) as [size|]; [| exact Hreg]. simpl.
  rewrite cleanup_other by done. rewrite lookup_insert_ne by done. exact Hreg.
Qed.

Lemma document_other (now : Z) (fails : nat -> bool) (message : Message.t)
    (groups : Store) (k : Key) :
  k ≠ _key message ->
  groups_after (_handle_document cfg now fails message groups) !! k
  = groups !! k.
Proof.
  intros Hne.
  destruct (handle_document_cases cfg now fails message groups)
    as [H | [H | (filename & g & rest & HM)]].
  - by rewrite H.
  - rewrite H. simpl. by apply cleanup_other.
  - by apply (matched_other cfg now fails message groups filename g rest).
Qed.

(** X1. A handler call reads and writes one conversation only: every key
    other than the one of the update holds after the call what it held
    before, for photo and document updates alike. *)
Theorem X1_other_conversations_untouched (u : Update) (groups : Store)
    (k : Key) :
  k ≠ update_key u ->
  groups_after (handle cfg u groups) !! k = groups !! k.
Proof.
  destruct u as [now now_c message | now fails message]; simpl; intros Hne.
  - by apply photo_other.
  - by apply document_other.
Qed.

(** X2. The document handler never adds to a queue and never reorders it:
    the queue of its key after the call is what remains of the queue before
    the call once some batches are taken off the front. *)
Theorem X2_document_only_removes_from_front (now : Z) (fails : nat -> bool)
    (message : Message.t) (groups : Store) :
  ∃ gone,
    queue_of groups (_key message)
    = gone ++ queue_of (groups_after
                          (_handle_document cfg now fails message groups))
                (_key message).
Proof.
  destruct (pop_expired_split cfg now (queue_of groups (_key message)))
    as [gone [Hq _]].
  rewrite <- cleanup_queue in Hq.
  destruct (handle_document_cases cfg now fails message groups)
    as [H | [H | (filename & g & rest & HM)]].
  - rewrite H. by exists [].
  - rewrite H. by exists gone.
  - rewrite (matched_queue cfg now fails _ _ _ _ _ HM).
    destruct HM as (_ & _ & _ & _ & Hfront & _). rewrite Hfront in Hq.
    exists (gone ++ [g]). by rewrite <- app_assoc.
Qed.

End Locality.

Lemma X1_other_conversations_untouched_witness :
  let u := DocumentUpdate 5 never (document_message 12 "model.stl" None) in
  let groups := <[(2, None) := [single_batch]]> (pending [album_batch]) in
  (2, None) ≠ update_key u
  ∧ groups_after (handle source_config u groups) !! (2, None)
    = Some [single_batch]
  ∧ groups_after (handle source_config u groups) !! (1, None) = None.
Proof.
  cbv zeta.
  assert ((2, None) ≠ update_key
            (DocumentUpdate 5 never (document_message 12 "model.stl" None)))
    as Hne by discriminate.
  split; [exact Hne |]. split; [| vm_compute; reflexivity].
  rewrite (X1_other_conversations_untouched source_config _ _ _ Hne).
  vm_compute. reflexivity.
Defined.

Section EvictionInTime.
Variable cfg : Config.

Lemma expired_later (now now' : Z) (g : PhotoGroup) :
  now <= now' -> expired cfg now g = true -> expired cfg now' g = true.
Proof. unfold expired. rewrite !Z.gtb_gt. lia. Qed.

Lemma pop_expired_later (now now' : Z) (q : list PhotoGroup) :
  now <= now' ->
  pop_expired cfg now' (pop_expired cfg now q) = pop_expired cfg now' q.
Proof.
  intros Hle. induction q as [|g q IH]; [reflexivity |].
  cbn [pop_expired]. destruct (expired cfg now g) eqn:E.
  - by rewrite (expired_later now now' g Hle E).
  - reflexivity.
Qed.

(** X3. Evictions compose along the clock: evicting at some time and again
    at a later time leaves the store that one eviction at the later time
    leaves.  (With equal times this is idempotence.) *)
Theorem X3_eviction_composes (now now' : Z) (key : Key) (groups : Store) :
  now <= now' ->
  _cleanup cfg now' key (_cleanup cfg now key groups)
  = _cleanup cfg now' key groups.
Proof.
  intros Hle. rewrite (cleanup_unfold cfg now key groups).
  destruct (groups !! key) as [[|g q]|] eqn:E; try reflexivity.
  pose proof (pop_expired_later now now' (g :: q) Hle) as Hlater.
  rewrite (cleanup_unfold cfg now' key groups), E.
  destruct (pop_expired cfg now (g :: q)) as [|g1 q1] eqn:E1.
  - rewrite cleanup_unfold, lookup_delete_eq.
    change (pop_expired cfg now' []) with (@nil PhotoGroup) in Hlater.
    by rewrite <- Hlater.
  - rewrite cleanup_unfold, lookup_insert_eq, Hlater.
    destruct (pop_expired cfg now' (g :: q)).
    + apply delete_insert_eq.
    + apply insert_insert_eq.
Qed.

End EvictionInTime.

Lemma X3_eviction_composes_witness :
  let late := {| media_group_id := None; file_ids := ["P9"];
                 message_ids := [9]; created_at := 500000000 |} in
  let groups := pending [single_batch; late] in
  600000001 <= 1200000000
  ∧ _cleanup source_config 600000001 (1, None) groups = pending [late]
  ∧ _cleanup source_config 1200000000 (1, None)
      (_cleanup source_config 600000001 (1, None) groups)
    = _cleanup source_config 1200000000 (1, None) groups.
Proof.
  cbv zeta.
  assert (600000001 <= 1200000000) as Hle by lia.
  split; [exact Hle |]. split; [vm_compute; reflexivity |].
  exact (X3_eviction_composes source_config 600000001 1200000000 (1, None)
           _ Hle).
Defined.

Section FailureFacts.
Variable cfg : Config.

(** X4. A repost that the transport refuses loses the batch: the exception
    leaves the handler, the repost is the only request attempted (no source
    message and no document is deleted), the front batch is gone from the
    queue all the same, and the key stays registered with the rest of the
    queue, even when that rest is empty. *)
Theorem X4_failed_repost_loses_batch (now : Z) (fails : nat -> bool)
    (message : Message.t) (groups : Store) (filename : string)
    (g : PhotoGroup) (rest : list PhotoGroup) :
  Matches cfg now message groups filename g rest ->
  file_ids g ≠ [] ->
  fails 0%nat = true ->
  let o := _handle_document cfg now fails message groups in
  raised o = Some TransportError
  ∧ calls o = [spec_repost message filename g]
  ∧ groups_after o !! _key message = Some rest
  ∧ groups_after o
    = <[_key message := rest]> (_cleanup cfg now (_key message) groups).
Proof.
  intros HM Hne Hfail. cbv zeta.
  rewrite (handle_document_matched _ _ _ _ _ _ _ _ HM). cbv zeta.
  rewrite (run_respond _ _ _ _ _ Hne), Hfail. simpl.
  by rewrite lookup_insert_eq.
Qed.

Lemma reachable_well_formed (groups : Store) (g : PhotoGroup) :
  reachable cfg groups -> batch_in groups g -> well_formed g.
Proof.
  intros Hreach. revert g.
  induction Hreach as [|u groups Hreach IH]; intros g Hg.
  - destruct Hg as (k & q & Hk & _). by rewrite lookup_empty in Hk.
  - destruct u as [now now_c message | now fails message]; simpl in Hg.
    + apply photo_batches in Hg
        as [Hold | [(fid & ->) | (t & fid & Ht & ->)]].
      * by apply IH.
      * split; simpl; lia.
      * apply well_formed_extended. by apply IH.
    + apply document_batches in Hg. by apply IH.
Qed.

(** X5. On a store the bot can reach, the only exception that leaves the
    document handler is the transport's refusal of the repost: the handler
    never fails on an index, and when it raises, the repost was the first and
    only request. *)
Theorem X5_document_raises_only_on_refused_repost (now : Z)
    (fails : nat -> bool) (message : Message.t) (groups : Store) (e : exn) :
  reachable cfg groups ->
  raised (_handle_document cfg now fails message groups) = Some e ->
  e = TransportError ∧ fails 0%nat = true
  ∧ length (calls (_handle_document cfg now fails message groups)) = 1%nat.
Proof.
  intros Hreach.
  destruct (handle_document_cases cfg now fails message groups)
    as [H | [H | (filename & g & rest & HM)]].
  - by rewrite H.
  - by rewrite H.
  - rewrite (handle_document_matched _ _ _ _ _ _ _ _ HM). cbv zeta.
    assert (file_ids g ≠ []) as Hne.
    { destruct HM as (_ & _ & _ & _ & Hfront & _).
      apply queue_of_cons in Hfront.
      assert (batch_in groups g) as Hin.
      { destruct (cleanup_batches cfg now _ _ _ _ g Hfront)
          as (q0 & Hq0 & Hg0); [by left |]. by exists (_key message), q0. }
      destruct (reachable_well_formed groups g Hreach Hin) as [_ Hpos].
      intros Hnil. rewrite Hnil in Hpos. simpl in Hpos. lia. }
    rewrite (run_respond _ _ _ _ _ Hne).
    destruct (fails 0%nat); simpl; [| discriminate].
    by intros [= <-].
Qed.

End FailureFacts.

Lemma X4_failed_repost_loses_batch_witness :
  let message := document_message 12 "model.stl" None in
  let groups := pending [album_batch] in
  let refuse := fun _ : nat => true in
  let o := _handle_document source_config 5 refuse message groups in
  Matches source_config 5 message groups "model.stl" album_batch []
  ∧ raised o = Some TransportError
  ∧ length (calls o) = 1%nat
  ∧ groups_after o !! (1, None) = Some [].
Proof.
  cbv zeta.
  assert (Matches source_config 5 (document_message 12 "model.stl" None)
            (pending [album_batch]) "model.stl" album_batch []) as HM.
  { repeat apply conj; try (vm_compute; reflexivity); discriminate. }
  assert (file_ids album_batch ≠ []) as Hne by discriminate.
  split; [exact HM |].
  pose proof (X4_failed_repost_loses_batch source_config 5 (fun _ => true)
                (document_message 12 "model.stl" None) (pending [album_batch])
                "model.stl" album_batch [] HM Hne eq_refl)
    as (Hraised & Hcalls & Hkey & _).
  split; [exact Hraised |]. split; [by rewrite Hcalls | exact Hkey].
Defined.

Lemma X5_document_raises_only_on_refused_repost_witness :
  let groups :=
    groups_after
      (handle source_config
         (PhotoUpdate 0 0 (photo_message 10 None "P1" None)) ∅) in
  let refuse := fun _ : nat => true in
  let message := document_message 12 "part.zip" None in
  reachable source_config groups
  ∧ raised (_handle_document source_config 5 refuse message groups)
    = Some TransportError
  ∧ length (calls (_handle_document source_config 5 refuse message groups))
    = 1%nat.
Proof.
  cbv zeta.
  assert (reachable source_config
            (groups_after
               (handle source_config
                  (PhotoUpdate 0 0 (photo_message 10 None "P1" None)) ∅)))
    as Hreach by (apply reachable_handle; apply reachable_start).
  split; [exact Hreach |].
  assert (raised (_handle_document source_config 5 (fun _ => true)
                    (document_message 12 "part.zip" None)
                    (groups_after
                       (handle source_config
                          (PhotoUpdate 0 0 (photo_message 10 None "P1" None))
                          ∅)))
          = Some TransportError) as Hraised by (vm_compute; reflexivity).
  split; [exact Hraised |].
  exact (proj2 (proj2 (X5_document_raises_only_on_refused_repost source_config
                         5 (fun _ => true) _ _ _ Hreach Hraised))).
Defined.

Section RegistrationFacts.
Variable cfg : Config.

Lemma no_empty_queue_insert (key : Key) (q : list PhotoGroup) (groups : Store) :
  no_empty_queue groups -> q ≠ [] -> no_empty_queue (<[key := q]> groups).
Proof.
  intros H Hq k. destruct (decide (k = key)) as [->|Hne].
  - rewrite lookup_insert_eq. congruence.
  - rewrite lookup_insert_ne by done. apply H.
Qed.

Lemma no_empty_queue_delete (key : Key) (groups : Store) :
  no_empty_queue groups -> no_empty_queue (delete key groups).
Proof.
  intros H k. destruct (decide (k = key)) as [->|Hne].
  - by rewrite lookup_delete_eq.
  - rewrite lookup_delete_ne by done. apply H.
Qed.

Lemma no_empty_queue_cleanup (now : Z) (key : Key) (groups : Store) :
  no_empty_queue groups -> no_empty_queue (_cleanup cfg now key groups).
Proof.
  intros H. rewrite cleanup_unfold.
  destruct (groups !! key) as [[|g q]|]; try exact H.
  destruct (pop_expired cfg now (g :: q)) eqn:E.
  - by apply no_empty_queue_delete.
  - by apply no_empty_queue_insert.
Qed.

(** X6. A queue is deregistered as soon as it runs empty: if no key is
    registered with an empty list before an update and no exception leaves
    the handler, no key is registered with an empty list after it. *)
Theorem X6_empty_queues_are_deregistered (u : Update) (groups : Store) :
  no_empty_queue groups ->
  raised (handle cfg u groups) = None ->
  no_empty_queue (groups_after (handle cfg u groups)).
Proof.
  intros H. destruct u as [now now_c message | now fails message]; simpl.
  - unfold _handle_photo. destruct (_skip_user cfg message); [by intros _ |].
    destruct (_queue (_key message) groups) as [groups' queue] eqn:Hreg.
    destruct (Message.photo message) as [sizes|]; [| discriminate].
    destruct (last sizes) as [size|]; [| discriminate]. simpl. intros _.
    apply no_empty_queue_cleanup.
    intros k. destruct (decide (k = _key message)) as [->|Hne].
    + rewrite lookup_insert_eq. intros [= Hq]. revert Hq.
      destruct (last queue) as [t|];
        [destruct (truthy_str (Message.media_group_id message)
                   && bool_decide
                        (media_group_id t = Message.media_group_id message)) |];
        intros Hq; by apply app_eq_nil in Hq as [_ Hq].
    + rewrite lookup_insert_ne by done.
      unfold _queue in Hreg. destruct (groups !! _key message).
      * injection Hreg as <- _. apply H.
      * injection Hreg as <- _. rewrite lookup_insert_ne by done. apply H.
  - destruct (handle_document_cases cfg now fails message groups)
      as [Hs | [Hs | (filename & g & rest & HM)]].
    + rewrite Hs. by intros _.
    + rewrite Hs. intros _. by apply no_empty_queue_cleanup.
    + rewrite (handle_document_matched _ _ _ _ _ _ _ _ HM). cbv zeta.
      destruct (respond cfg message filename g fails []) as [[[]|e] log];
        simpl; [| discriminate].
      intros _. destruct rest.
      * apply no_empty_queue_delete. by apply no_empty_queue_cleanup.
      * apply no_empty_queue_insert; [by apply no_empty_queue_cleanup | done].
Qed.

(** X7. A key left registered with an empty list behaves as an absent key:
    eviction leaves the store as it is, a document is dropped without a
    request, and a photo update of an admitted sender gives the very outcome
    it gives on the store without the key. *)
Theorem X7_empty_registration_is_harmless (now now_c : Z)
    (fails : nat -> bool) (message : Message.t) (groups : Store) :
  groups !! _key message = Some [] ->
  _cleanup cfg now (_key message) groups = groups
  ∧ _handle_document cfg now fails message groups = silent groups
  ∧ (_skip_user cfg message = false ->
     _handle_photo cfg now now_c message groups
     = _handle_photo cfg now now_c message (delete (_key message) groups)).
Proof.
  intros Hkey. repeat apply conj.
  - by rewrite cleanup_unfold, Hkey.
  - unfold _handle_document. rewrite Hkey. simpl.
    destruct (_skip_user cfg message); [reflexivity |].
    destruct (Message.document message) as [doc|]; [| reflexivity].
    destruct (negb (truthy_str (file_name doc))); [reflexivity |].
    by destruct (negb (bool_decide
                         (extension (default EmptyString (file_name doc))
                          ∈ ALLOWED_EXTENSIONS))).
  - intros Hauth. unfold _handle_photo, _queue.
    rewrite Hauth, Hkey, lookup_delete_eq.
    assert (<[_key message := []]> (delete (_key message) groups) = groups)
      as -> by (rewrite insert_delete_eq; by apply insert_id).
    reflexivity.
Qed.

End RegistrationFacts.

Lemma X6_empty_queues_are_deregistered_witness :
  let u := DocumentUpdate 5 never (document_message 12 "model.stl" None) in
  let groups := pending [album_batch] in
  no_empty_queue groups
  ∧ raised (handle source_config u groups) = None
  ∧ groups_after (handle source_config u groups) = ∅
  ∧ no_empty_queue (groups_after (handle source_config u groups)).
Proof.
  cbv zeta.
  assert (no_empty_queue (pending [album_batch])) as Hne.
  { intros k. unfold pending. destruct (decide (k = (1, None))) as [->|Hk].
    - rewrite lookup_singleton_eq. discriminate.
    - rewrite lookup_singleton_ne by done. discriminate. }
  assert (raised (handle source_config
                    (DocumentUpdate 5 never
                       (document_message 12 "model.stl" None))
                    (pending [album_batch])) = None) as Hok
    by (vm_compute; reflexivity).
  refine (conj Hne (conj Hok (conj _ _))); [vm_compute; reflexivity |].
  exact (X6_empty_queues_are_deregistered source_config _ _ Hne Hok).
Defined.

Lemma X7_empty_registration_is_harmless_witness :
  let message := photo_message 10 None "P1" None in
  let groups := pending [] in
  groups !! _key message = Some []
  ∧ _cleanup source_config 5 (_key message) groups = groups
  ∧ _handle_photo source_config 5 0 message groups
    = _handle_photo source_config 5 0 message ∅.
Proof.
  cbv zeta.
  assert (pending [] !! _key (photo_message 10 None "P1" None) = Some [])
    as Hkey by (vm_compute; reflexivity).
  pose proof (X7_empty_registration_is_harmless source_config 5 0 never
                (photo_message 10 None "P1" None) (pending []) Hkey)
    as (Hclean & _ & Hphoto).
  refine (conj Hkey (conj Hclean _)).
  rewrite (Hphoto eq_refl). vm_compute. reflexivity.
Defined.

Section PhotoStorage.
Variable cfg : Config.

Lemma photo_ref_inv (message : Message.t) (fid : string) :
  photo_ref message = Some fid ->
  ∃ sizes size, Message.photo message = Some sizes ∧ last sizes = Some size
                ∧ file_id size = fid.
Proof.
  unfold photo_ref. destruct (Message.photo message) as [sizes|]; [| done].
  destruct (last sizes) as [size|] eqn:E; simpl; [| discriminate].
  intros [= <-]. by exists sizes, size.
Qed.

Lemma pop_expired_keeps_last (now : Z) (l : list PhotoGroup) (b : PhotoGroup) :
  expired cfg now b = false -> last (pop_expired cfg now (l ++ [b])) = Some b.
Proof.
  intros Hb. induction l as [|x l IH]; simpl.
  - by rewrite Hb.
  - destruct (expired cfg now x); [exact IH |].
    apply (last_snoc b (x :: l)).
Qed.

Lemma not_expired_within (now : Z) (g : PhotoGroup) :
  now - created_at g <= PHOTO_TTL cfg -> expired cfg now g = false.
Proof. unfold expired. intros H. rewrite Z.gtb_ltb. apply Z.ltb_ge. lia. Qed.

(** X8. A photo is kept when its batch is young enough: if the clock value
    read by the eviction is within the TTL of the handler's own clock value
    and of the creation of the tail batch, then after the call the last batch
    of the key's queue ends with the file id and the message id of the
    update. *)
Theorem X8_photo_is_stored (now now_c : Z) (message : Message.t)
    (groups : Store) (fid : string) :
  _skip_user cfg message = false ->
  photo_ref message = Some fid ->
  now_c - now <= PHOTO_TTL cfg ->
  (∀ t, last (queue_of groups (_key message)) = Some t ->
        now_c - created_at t <= PHOTO_TTL cfg) ->
  ∃ b,
    last (queue_of (groups_after (_handle_photo cfg now now_c message groups))
            (_key message)) = Some b
    ∧ last (file_ids b) = Some fid
    ∧ last (message_ids b) = Some (Message.message_id message).
Proof.
  intros Hauth Href Hnow Htail.
  destruct (photo_ref_inv _ _ Href) as (sizes & size & Hphoto & Hsize & <-).
  rewrite (handle_photo_run _ _ _ _ _ _ _ Hauth Hphoto Hsize). cbv zeta. simpl.
  rewrite cleanup_queue. unfold queue_of at 1. rewrite lookup_insert_eq. simpl.
  destruct (last (queue_of groups (_key message))) as [t|] eqn:Hlast.
  - destruct (truthy_str (Message.media_group_id message)
              && bool_decide (media_group_id t = Message.media_group_id message)).
    + exists (extended t (file_id size) (Message.message_id message)).
      split; [| split; apply last_snoc].
      apply pop_expired_keeps_last, not_expired_within. simpl. by apply Htail.
    + eexists. split;
        [by apply pop_expired_keeps_last, not_expired_within
        | split; reflexivity].
  - eexists. split;
      [by apply pop_expired_keeps_last, not_expired_within
      | split; reflexivity].
Qed.

End PhotoStorage.

Lemma X8_photo_is_stored_witness :
  let message := photo_message 12 (Some "g1") "P3" None in
  let groups := pending [album_batch] in
  (_skip_user source_config message = false
   ∧ photo_ref message = Some "P3"
   ∧ 8 - 7 <= PHOTO_TTL source_config)
  ∧ ∃ b,
      last (queue_of (groups_after (_handle_photo source_config 7 8 message
                                      groups)) (_key message)) = Some b
      ∧ last (file_ids b) = Some "P3"
      ∧ last (message_ids b) = Some 12.
Proof.
  cbv zeta. split; [repeat split; vm_compute; congruence |].
  apply (X8_photo_is_stored source_config 7 8
           (photo_message 12 (Some "g1") "P3" None) (pending [album_batch])
           "P3"); [reflexivity | reflexivity | vm_compute; congruence |].
  intros t [= <-]. vm_compute. congruence.
Defined.

Section Bursts.
Variable cfg : Config.

(** One photo of a burst on a queue made of the burst's batch alone. *)
Lemma burst_step (key : Key) (gid : string) (u : Update) (t : PhotoGroup)
    (groups : Store) :
  gid ≠ EmptyString ->
  groups !! key = Some [t] ->
  media_group_id t = Some gid ->
  burst_member cfg key gid (created_at t) u ->
  groups_after (handle cfg u groups)
  = <[key := [extended t (default EmptyString (photo_ref (update_message u)))
                (Message.message_id (update_message u))]]> groups.
Proof.
  intros Hgid Hkey Ht Hu. destruct u as [now now_c message | ? ? ?]; [| done].
  destruct Hu as (Hauth & <- & Hm & [fid Href] & Hage). simpl.
  destruct (photo_ref_inv _ _ Href) as (sizes & size & Hphoto & Hsize & Hfid).
  rewrite (handle_photo_run _ _ _ _ _ _ _ Hauth Hphoto Hsize). cbv zeta. simpl.
  unfold queue_of. rewrite Hkey. simpl. rewrite Hm, Ht.
  destruct gid as [|c gid]; [done |]. simpl.
  rewrite bool_decide_eq_true_2 by done.
  rewrite cleanup_unfold, lookup_insert_eq. simpl.
  rewrite (not_expired_within cfg now_c
             (extended t (file_id size) (Message.message_id message)))
    by exact Hage.
  rewrite insert_insert_eq, Href, Hfid. reflexivity.
Qed.

Lemma burst_run (key : Key) (gid : string) (us : list Update) :
  gid ≠ EmptyString ->
  ∀ (t : PhotoGroup) (groups : Store),
    groups !! key = Some [t] ->
    media_group_id t = Some gid ->
    Forall (burst_member cfg key gid (created_at t)) us ->
    run cfg us groups
    = <[key := [ {| media_group_id := Some gid;
                    file_ids := file_ids t ++ burst_refs us;
                    message_ids := message_ids t ++ burst_ids us;
                    created_at := created_at t |} ]]> groups.
Proof.
  intros Hgid. induction us as [|u us IH]; intros t groups Hkey Ht Hall.
  - simpl. rewrite !app_nil_r. symmetry. apply insert_id.
    rewrite Hkey, <- Ht. by destruct t.
  - apply Forall_cons in Hall as [Hu Hall]. unfold run. simpl.
    rewrite (burst_step key gid u t groups Hgid Hkey Ht Hu).
    fold (run cfg us
            (<[key := [extended t
                         (default EmptyString (photo_ref (update_message u)))
                         (Message.message_id (update_message u))]]> groups)).
    rewrite (IH (extended t
                   (default EmptyString (photo_ref (update_message u)))
                   (Message.message_id (update_message u))));
      [| apply lookup_insert_eq | exact Ht | exact Hall].
    rewrite insert_insert_eq. simpl. by rewrite <- !app_assoc.
Qed.

(** X9. Photos of one media group that arrive in a row pile up in one batch:
    on a conversation without pending batch, a burst of photo updates with
    the same non-empty group id, each evicting within the TTL of the first
    update's clock value, leaves exactly one batch under the key, holding the
    file ids and the message ids of all updates in arrival order and the
    first clock value as creation time. *)
Theorem X9_burst_builds_one_batch (key : Key) (gid : string) (T0 c0 : Z)
    (first : Message.t) (us : list Update) (groups : Store) :
  gid ≠ EmptyString ->
  groups !! key = None ->
  Forall (burst_member cfg key gid T0) (PhotoUpdate T0 c0 first :: us) ->
  run cfg (PhotoUpdate T0 c0 first :: us) groups
  = <[key := [ {| media_group_id := Some gid;
                  file_ids := burst_refs (PhotoUpdate T0 c0 first :: us);
                  message_ids := burst_ids (PhotoUpdate T0 c0 first :: us);
                  created_at := T0 |} ]]> groups.
Proof.
  intros Hgid Hkey Hall. apply Forall_cons in Hall as [Hfirst Hall].
  destruct Hfirst as (Hauth & <- & Hm & [fid Href] & Hage).
  destruct (photo_ref_inv _ _ Href) as (sizes & size & Hphoto & Hsize & Hfid).
  unfold run. simpl.
  rewrite (handle_photo_run _ _ _ _ _ _ _ Hauth Hphoto Hsize). cbv zeta. simpl.
  unfold queue_of. rewrite Hkey. simpl.
  rewrite cleanup_unfold, lookup_insert_eq. simpl.
  rewrite (not_expired_within cfg c0 {| created_at := T0 |}) by exact Hage.
  rewrite insert_insert_eq.
  match goal with
  | |- foldl _ ?g us = _ => fold (run cfg us g)
  end.
  rewrite (burst_run (_key first) gid us Hgid
             {| media_group_id := Message.media_group_id first;
                file_ids := [file_id size];
                message_ids := [Message.message_id first];
                created_at := T0 |});
    [| apply lookup_insert_eq | exact Hm | exact Hall].
  rewrite insert_insert_eq. simpl. by rewrite Href, Hfid.
Qed.

End Bursts.

Lemma X9_burst_builds_one_batch_witness :
  let first := photo_message 10 (Some "g1") "P1" None in
  let us := [PhotoUpdate 1 1 (photo_message 11 (Some "g1") "P2" None)] in
  Forall (burst_member source_config (1, None) "g1" 0)
    (PhotoUpdate 0 0 first :: us)
  ∧ run source_config (PhotoUpdate 0 0 first :: us) ∅ = pending [album_batch].
Proof.
  cbv zeta.
  assert (Forall (burst_member source_config (1, None) "g1" 0)
            [PhotoUpdate 0 0 (photo_message 10 (Some "g1") "P1" None);
             PhotoUpdate 1 1 (photo_message 11 (Some "g1") "P2" None)])
    as Hall.
  { repeat constructor; try (vm_compute; congruence); by eexists. }
  split; [exact Hall |].
  rewrite (X9_burst_builds_one_batch source_config (1, None) "g1" 0 0
             (photo_message 10 (Some "g1") "P1" None)
             [PhotoUpdate 1 1 (photo_message 11 (Some "g1") "P2" None)] ∅);
    [vm_compute; reflexivity | discriminate | reflexivity | exact Hall].
Defined.

Section RoundTrip.
Variable cfg : Config.

(** X10. A photo and then its caption document bring the store back: on a
    conversation without pending batch, a photo update followed by a document
    of the same conversation with an allowed extension and a larger message
    id, both within the TTL of the photo, and a repost that goes through,
    leave the store exactly as it was before the photo; the requests are the
    single-photo repost under the file name, then the deletion of the photo
    message and of the document message (each when its flag is set). *)
Theorem X10_photo_then_document_round_trip (now now_c now_d : Z)
    (fails : nat -> bool) (photo doc : Message.t) (groups : Store)
    (fid filename : string) :
  groups !! _key photo = None ->
  _skip_user cfg photo = false ->
  photo_ref photo = Some fid ->
  now_c - now <= PHOTO_TTL cfg ->
  _skip_user cfg doc = false ->
  _key doc = _key photo ->
  Message.document doc = Some {| file_name := Some filename |} ->
  filename ≠ EmptyString ->
  extension filename ∈ ALLOWED_EXTENSIONS ->
  Message.message_id photo < Message.message_id doc ->
  now_d - now <= PHOTO_TTL cfg ->
  fails 0%nat = false ->
  let o := _handle_document cfg now_d fails doc
             (groups_after (_handle_photo cfg now now_c photo groups)) in
  groups_after o = groups
  ∧ raised o = None
  ∧ calls o
    = send_photo (Message.chat_id doc) fid filename
        (Message.message_thread_id doc)
      :: (if DELETE_ORIGINAL_PHOTO cfg
          then [delete_message (Message.chat_id doc) (Message.message_id photo)]
          else [])
      ++ (if DELETE_ARCHIVE cfg
          then [delete_message (Message.chat_id doc) (Message.message_id doc)]
          else []).
Proof.
  intros Hkey Hauth Href Hage Hauthd Hsame Hdoc Hname Hext Hlt Haged Hsent.
  destruct (photo_ref_inv _ _ Href) as (sizes & size & Hphoto & Hsize & Hfid).
  cbv zeta.
  pose (fresh := {| media_group_id := Message.media_group_id photo;
                    file_ids := [file_id size];
                    message_ids := [Message.message_id photo];
                    created_at := now |}).
  assert (∀ t, t - now <= PHOTO_TTL cfg ->
            _cleanup cfg t (_key photo) (<[_key photo := [fresh]]> groups)
            = <[_key photo := [fresh]]> groups) as Hstay.
  { intros t Ht. rewrite cleanup_unfold, lookup_insert_eq.
    cbn [pop_expired]. rewrite (not_expired_within cfg t fresh Ht).
    apply insert_insert_eq. }
  assert (groups_after (_handle_photo cfg now now_c photo groups)
          = <[_key photo := [fresh]]> groups) as ->.
  { rewrite (handle_photo_run _ _ _ _ _ _ _ Hauth Hphoto Hsize). cbv zeta.
    unfold queue_of. rewrite Hkey. simpl. exact (Hstay now_c Hage). }
  specialize (Hstay now_d Haged).
  assert (Matches cfg now_d doc (<[_key photo := [fresh]]> groups) filename
            fresh []) as HM.
  { repeat apply conj; try done.
    - rewrite Hsame, Hstay. unfold queue_of. by rewrite lookup_insert_eq.
    - unfold not_after. simpl. rewrite Z.geb_leb. apply Z.leb_gt. lia. }
  assert (file_ids fresh ≠ []) as Hne by discriminate.
  rewrite (handle_document_matched _ _ _ _ _ _ _ _ HM). cbv zeta.
  rewrite (run_respond _ _ _ _ _ Hne), Hsent.
  rewrite Hsame, Hstay, delete_insert_eq, (delete_id _ _ Hkey).
  subst fresh. unfold spec_repost, spec_deletes. simpl. rewrite Hfid.
  repeat split.
Qed.

End RoundTrip.

Lemma X10_photo_then_document_round_trip_witness :
  let photo := photo_message 5 None "P1" None in
  let doc := document_message 6 "part.zip" None in
  let o := _handle_document source_config 9 never doc
             (groups_after (_handle_photo source_config 0 1 photo ∅)) in
  groups_after o = ∅
  ∧ raised o = None
  ∧ calls o = [ send_photo 1 "P1" "part.zip" None;
                delete_message 1 5; delete_message 1 6 ].
Proof.
  cbv zeta.
  apply (X10_photo_then_document_round_trip source_config 0 1 9 never
           (photo_message 5 None "P1" None)
           (document_message 6 "part.zip" None) ∅ "P1" "part.zip");
    try reflexivity; try discriminate; try (vm_compute; congruence).
Defined.

(** ** Further properties of the extension filter *)

Lemma rsplit_at_dot_join (h t : string) :
  rsplit_at_dot t = None -> rsplit_at_dot (h +:+ "." +:+ t) = Some (h, t).
Proof.
  intros Ht. induction h as [|c h IH].
  - change (rsplit_at_dot (String "." t) = Some (EmptyString, t)).
    simpl. by rewrite Ht.
  - change (rsplit_at_dot (String c (h +:+ "." +:+ t)) = Some (String c h, t)).
    simpl. by rewrite IH.
Qed.

(** X11. Only the text after the last dot counts: for a text [t] without a
    dot, the name made of any [h], a dot and [t] is split into [h] and [t],
    and its extension is [t] in lower case, whatever dots [h] contains. *)
Theorem X11_extension_of_joined_name (h t : string) :
  rsplit_at_dot t = None ->
  rsplit_dot (h +:+ "." +:+ t) = [h; t]
  ∧ extension (h +:+ "." +:+ t) = lower t.
Proof.
  intros Ht. unfold extension, rsplit_dot.
  by rewrite (rsplit_at_dot_join h t Ht).
Qed.

Lemma X11_extension_of_joined_name_witness :
  rsplit_at_dot "ZIP" = None
  ∧ rsplit_dot ("backup.tar" +:+ "." +:+ "ZIP") = ["backup.tar"; "ZIP"]
  ∧ extension ("backup.tar" +:+ "." +:+ "ZIP") = "zip".
Proof.
  split; [reflexivity |].
  exact (X11_extension_of_joined_name "backup.tar" "ZIP" eq_refl).
Defined.

Lemma lower_ascii_idempotent (c : ascii) :
  lower_ascii (lower_ascii c) = lower_ascii c.
Proof. destruct c as [[] [] [] [] [] [] [] []]; reflexivity. Qed.

Lemma lower_ascii_dot (c : ascii) :
  Ascii.eqb (lower_ascii c) "." = Ascii.eqb c ".".
Proof. destruct c as [[] [] [] [] [] [] [] []]; reflexivity. Qed.

Lemma lower_idempotent (s : string) : lower (lower s) = lower s.
Proof.
  induction s as [|c s IH]; simpl; [reflexivity |].
  by rewrite lower_ascii_idempotent, IH.
Qed.

Lemma rsplit_at_dot_lower (s : string) :
  rsplit_at_dot (lower s)
  = match rsplit_at_dot s with
    | Some (h, t) => Some (lower h, lower t)
    | None => None
    end.
Proof.
  induction s as [|c s IH]; simpl; [reflexivity |].
  rewrite IH. destruct (rsplit_at_dot s) as [[h t]|]; [reflexivity |].
  rewrite lower_ascii_dot. by destruct (Ascii.eqb c ".").
Qed.

Lemma extension_lower (s : string) : extension (lower s) = extension s.
Proof.
  unfold extension, rsplit_dot. rewrite rsplit_at_dot_lower.
  destruct (rsplit_at_dot s) as [[h t]|]; simpl; apply lower_idempotent.
Qed.

(** No byte outside ASCII becomes ASCII under [lower], and none inside
    leaves it. *)
Lemma lower_ascii_range (c : ascii) :
  (N_of_ascii (lower_ascii c) <? 128)%N = (N_of_ascii c <? 128)%N.
Proof. destruct c as [[] [] [] [] [] [] [] []]; reflexivity. Qed.

Lemma is_ascii_lower (s : string) : is_ascii (lower s) = is_ascii s.
Proof.
  induction s as [|c s IH]; simpl; [reflexivity |].
  by rewrite lower_ascii_range, IH.
Qed.

(** A name with a byte outside ASCII never lowers to an allowed extension:
    the extension test only succeeds where [lower] is [str.lower]. *)
Lemma allowed_extension_is_ascii (s : string) :
  lower s ∈ ALLOWED_EXTENSIONS -> is_ascii s = true.
Proof.
  intros Hin. rewrite <- is_ascii_lower.
  unfold ALLOWED_EXTENSIONS in Hin. set_unfold in Hin.
  repeat (destruct Hin as [Hin | Hin]; [| by rewrite Hin]).
  by rewrite Hin.
Qed.

(** X12. The filter ignores the case of letters in names made of ASCII
    characters: two such names with the same lower-case form have the same
    extension, so both are allowed or both are dropped. *)
Theorem X12_extension_ignores_case (s1 s2 : string) :
  is_ascii s1 = true ->
  is_ascii s2 = true ->
  lower s1 = lower s2 ->
  extension s1 = extension s2
  ∧ (extension s1 ∈ ALLOWED_EXTENSIONS <-> extension s2 ∈ ALLOWED_EXTENSIONS).
Proof.
  intros _ _ H.
  assert (extension s1 = extension s2) as ->
    by (rewrite <- (extension_lower s1), <- (extension_lower s2); by rewrite H).
  split; reflexivity.
Qed.

Lemma X12_extension_ignores_case_witness :
  (is_ascii "Model.STL" = true ∧ is_ascii "MODEL.stl" = true
   ∧ lower "Model.STL" = lower "MODEL.stl")
  ∧ extension "Model.STL" = extension "MODEL.stl".
Proof.
  split; [repeat split |].
  exact (proj1 (X12_extension_ignores_case "Model.STL" "MODEL.stl"
                  eq_refl eq_refl eq_refl)).
Defined.

(** ** Creation order *)

(** X13. Under a clock that never goes back, every queue of every store the
    bot reaches is in nondecreasing order of creation time, and no batch is
    dated after the last clock value read. *)
Theorem X13_creation_order_kept (cfg : Config) (T : Z) (groups : Store)
    (key : Key) :
  clocked cfg T groups ->
  Sorted by_creation (queue_of groups key)
  ∧ Forall (fun g => created_at g <= T) (queue_of groups key).
Proof.
  intros Hrun.
  assert (store_ordered T groups) as Hord.
  { induction Hrun as [T | T now now_c message groups _ IH HT Hc
                         | T now fails message groups _ IH HT].
    - intros k q Hq. by rewrite lookup_empty in Hq.
    - by apply (store_ordered_photo cfg T).
    - apply (store_ordered_mono T); [exact HT |].
      by apply store_ordered_document. }
  destruct (store_ordered_queue T key groups Hord) as [Hsorted Hdated].
  split; [by apply StronglySorted_Sorted | exact Hdated].
Qed.

Lemma X13_creation_order_kept_witness :
  let groups :=
    groups_after
      (_handle_photo source_config 3 4 (photo_message 11 None "P2" None)
         (groups_after
            (_handle_photo source_config 1 2
               (photo_message 10 None "P1" None) ∅))) in
  clocked source_config 4 groups
  ∧ length (queue_of groups (1, None)) = 2%nat
  ∧ Sorted by_creation (queue_of groups (1, None)).
Proof.
  cbv zeta.
  assert (clocked source_config 4
            (groups_after
               (_handle_photo source_config 3 4
                  (photo_message 11 None "P2" None)
                  (groups_after
                     (_handle_photo source_config 1 2
                        (photo_message 10 None "P1" None) ∅))))) as Hrun.
  { apply (clocked_photo source_config 2); [| lia | lia].
    apply (clocked_photo source_config 0); [| lia | lia].
    apply clocked_start. }
  refine (conj Hrun (conj _ _)); [vm_compute; reflexivity |].
  exact (proj1 (X13_creation_order_kept source_config 4 _ (1, None) Hrun)).
Defined.

(** ** Updates of different conversations *)

Section Independence.
Variable cfg : Config.

Lemma cleanup_frame (now : Z) (key : Key) (G G' : Store) :
  G !! key = G' !! key ->
  _cleanup cfg now key G !! key = _cleanup cfg now key G' !! key.
Proof.
  intros H. rewrite !cleanup_unfold, <- H.
  destruct (G !! key) as [[|g q]|] eqn:E; rewrite <- ?H; try done.
  destruct (pop_expired cfg now (g :: q)).
  - by rewrite !lookup_delete_eq.
  - by rewrite !lookup_insert_eq.
Qed.

(** What a photo update does to its conversation depends on the queue of
    that conversation only. *)
Lemma photo_frame (now now_c : Z) (message : Message.t) (G G' : Store) :
  G !! _key message = G' !! _key message ->
  calls (_handle_photo cfg now now_c message G)
  = calls (_handle_photo cfg now now_c message G')
  ∧ raised (_handle_photo cfg now now_c message G)
    = raised (_handle_photo cfg now now_c message G')
  ∧ groups_after (_handle_photo cfg now now_c message G) !! _key message
    = groups_after (_handle_photo cfg now now_c message G') !! _key message.
Proof.
  intros H. unfold _handle_photo, _queue. rewrite <- H.
  destruct (_skip_user cfg message); [by simpl |].
  destruct (G !! _key message) as [q|] eqn:E.
  - destruct (Message.photo message) as [sizes|]; [| by simpl; rewrite E, <- H].
    destruct (last sizes) as [size|]; [| by simpl; rewrite E, <- H]. simpl.
    repeat split. apply cleanup_frame. by rewrite !lookup_insert_eq.
  - destruct (Message.photo message) as [sizes|];
      [| by simpl; rewrite !lookup_insert_eq].
    destruct (last sizes) as [size|]; [| by simpl; rewrite !lookup_insert_eq].
    simpl. repeat split. apply cleanup_frame. by rewrite !lookup_insert_eq.
Qed.

(** The same for a document update. *)
Lemma document_frame (now : Z) (fails : nat -> bool) (message : Message.t)
    (G G' : Store) :
  G !! _key message = G' !! _key message ->
  calls (_handle_document cfg now fails message G)
  = calls (_handle_document cfg now fails message G')
  ∧ raised (_handle_document cfg now fails message G)
    = raised (_handle_document cfg now fails message G')
  ∧ groups_after (_handle_document cfg now fails message G) !! _key message
    = groups_after (_handle_document cfg now fails message G') !! _key message.
Proof.
  intros H. pose proof (cleanup_frame now (_key message) G G' H) as Hc.
  unfold _handle_document.
  destruct (_skip_user cfg message); [by simpl |].
  destruct (Message.document message) as [doc|]; [| by simpl].
  destruct (negb (truthy_str (file_name doc))); [by simpl |].
  destruct (negb (bool_decide
                    (extension (default EmptyString (file_name doc))
                     ∈ ALLOWED_EXTENSIONS))); [by simpl |].
  rewrite <- H.
  destruct (negb (truthy_queue (G !! _key message))); [by simpl |].
  cbv zeta. rewrite <- Hc.
  destruct (_cleanup cfg now (_key message) G !! _key message)
    as [[|g rest]|] eqn:E;
    [simpl; by rewrite <- Hc, E | | simpl; by rewrite <- Hc, E].
  destruct (not_after g message); [simpl; by rewrite <- Hc, E |].
  destruct (respond cfg message (default EmptyString (file_name doc)) g fails [])
    as [[[]|e] log]; simpl.
  - rewrite !lookup_insert_eq. repeat split.
    destruct rest; by rewrite ?lookup_delete_eq, ?lookup_insert_eq.
  - by rewrite !lookup_insert_eq.
Qed.

Lemma handle_frame (u : Update) (G G' : Store) :
  G !! update_key u = G' !! update_key u ->
  calls (handle cfg u G) = calls (handle cfg u G')
  ∧ raised (handle cfg u G) = raised (handle cfg u G')
  ∧ groups_after (handle cfg u G) !! update_key u
    = groups_after (handle cfg u G') !! update_key u.
Proof.
  destruct u as [now now_c message | now fails message]; simpl.
  - apply photo_frame.
  - apply document_frame.
Qed.

Lemma handle_other (u : Update) (G : Store) (k : Key) :
  k ≠ update_key u -> groups_after (handle cfg u G) !! k = G !! k.
Proof.
  destruct u as [now now_c message | now fails message]; simpl; intros Hne.
  - by apply photo_other.
  - by apply document_other.
Qed.

(** X14. Updates of different conversations are independent: handled in
    either order they leave the same store, and each one sends the requests
    and raises the exception it would if the other had not happened. *)
Theorem X14_conversations_commute (u1 u2 : Update) (groups : Store) :
  update_key u1 ≠ update_key u2 ->
  groups_after (handle cfg u2 (groups_after (handle cfg u1 groups)))
  = groups_after (handle cfg u1 (groups_after (handle cfg u2 groups)))
  ∧ calls (handle cfg u2 (groups_after (handle cfg u1 groups)))
    = calls (handle cfg u2 groups)
  ∧ raised (handle cfg u2 (groups_after (handle cfg u1 groups)))
    = raised (handle cfg u2 groups).
Proof.
  intros Hne.
  assert (groups_after (handle cfg u1 groups) !! update_key u2
          = groups !! update_key u2) as H12
    by (apply handle_other; congruence).
  assert (groups_after (handle cfg u2 groups) !! update_key u1
          = groups !! update_key u1) as H21
    by (apply handle_other; congruence).
  destruct (handle_frame u2 _ _ H12) as (Hcalls & Hraised & Hkey2).
  destruct (handle_frame u1 _ _ H21) as (_ & _ & Hkey1).
  refine (conj _ (conj Hcalls Hraised)).
  apply map_eq. intros k.
  destruct (decide (k = update_key u2)) as [->|Hk2].
  - rewrite Hkey2. symmetry. apply handle_other. congruence.
  - rewrite (handle_other u2 _ k Hk2).
    destruct (decide (k = update_key u1)) as [->|Hk1].
    + by rewrite Hkey1.
    + by rewrite !handle_other.
Qed.

End Independence.

Lemma X14_conversations_commute_witness :
  let other := {| Message.chat_id := 2; Message.message_thread_id := Some 7;
                  Message.from_user := None; Message.message_id := 30;
                  Message.media_group_id := None;
                  Message.photo := Some [ {| file_id := "Q1" |} ];
                  Message.document := None |} in
  let u1 := PhotoUpdate 3 3 other in
  let u2 := DocumentUpdate 5 never (document_message 12 "model.stl" None) in
  let groups := pending [album_batch] in
  update_key u1 ≠ update_key u2
  ∧ groups_after (handle source_config u2
                    (groups_after (handle source_config u1 groups)))
    = groups_after (handle source_config u1
                      (groups_after (handle source_config u2 groups)))
  ∧ length (calls (handle source_config u2
                     (groups_after (handle source_config u1 groups)))) = 4%nat.
Proof.
  cbv zeta.
  match goal with
  | |- ?k1 ≠ ?k2 ∧ _ => assert (k1 ≠ k2) as Hne by discriminate
  end.
  split; [exact Hne |].
  match type of Hne with
  | update_key ?u1 ≠ update_key ?u2 =>
      pose proof (X14_conversations_commute source_config u1 u2
                    (pending [album_batch]) Hne) as (Hstore & Hcalls & _)
  end.
  split; [exact Hstore |]. rewrite Hcalls. vm_compute. reflexivity.
Defined.

(** ** Documents that are dropped *)

Section Drops.
Variable cfg : Config.

Lemma extension_trailing_dot (s : string) :
  extension (s +:+ ".") = EmptyString.
Proof.
  unfold extension, rsplit_dot.
  change (s +:+ ".") with (s +:+ "." +:+ EmptyString).
  by rewrite (rsplit_at_dot_join s EmptyString eq_refl).
Qed.

(** X15. The documents the handler drops on sight: a message without
    document, a document without name or with the empty name, a name ending
    in a dot, a name whose extension is not allowed, and any document for a
    conversation without queue.  In each case the store is returned as it
    was given (not even evicted), nothing is sent and nothing is raised. *)
Theorem X15_dropped_documents (now : Z) (fails : nat -> bool)
    (message : Message.t) (groups : Store) :
  Message.document message = None
  ∨ Message.document message = Some {| file_name := None |}
  ∨ Message.document message = Some {| file_name := Some EmptyString |}
  ∨ (∃ s, Message.document message = Some {| file_name := Some (s +:+ ".") |})
  ∨ (∃ n, Message.document message = Some {| file_name := Some n |}
          ∧ extension n ∉ ALLOWED_EXTENSIONS)
  ∨ groups !! _key message = None ->
  _handle_document cfg now fails message groups = silent groups.
Proof.
  assert (∀ n, Message.document message = Some {| file_name := Some n |} ->
            extension n ∉ ALLOWED_EXTENSIONS ->
            _handle_document cfg now fails message groups = silent groups)
    as Hunlisted.
  { intros n Hdoc Hext. unfold _handle_document. rewrite Hdoc. simpl.
    destruct (_skip_user cfg message); [reflexivity |].
    destruct n as [|c n]; [reflexivity |]. simpl.
    by rewrite (bool_decide_eq_false_2 _ Hext). }
  intros [Hdoc | [Hdoc | [Hdoc | [[s Hdoc] | [(n & Hdoc & Hext) | Hkey]]]]].
  - unfold _handle_document. rewrite Hdoc.
    by destruct (_skip_user cfg message).
  - unfold _handle_document. rewrite Hdoc.
    by destruct (_skip_user cfg message).
  - unfold _handle_document. rewrite Hdoc.
    by destruct (_skip_user cfg message).
  - apply (Hunlisted _ Hdoc). rewrite extension_trailing_dot.
    intros Hin. vm_compute in Hin. discriminate.
  - by apply (Hunlisted n).
  - unfold _handle_document. rewrite Hkey. simpl.
    destruct (_skip_user cfg message); [reflexivity |].
    destruct (Message.document message) as [doc|]; [| reflexivity].
    destruct (negb (truthy_str (file_name doc))); [reflexivity |].
    by destruct (negb (bool_decide
                         (extension (default EmptyString (file_name doc))
                          ∈ ALLOWED_EXTENSIONS))).
Qed.

(** X16. A caption that comes too late loses the photo without a trace: on a
    conversation without pending batch, a photo update followed by a document
    of the same conversation that passes the filters but is handled more than
    the TTL after the photo sends nothing; the batch is evicted, the store is
    as it was before the photo, and no message is deleted. *)
Theorem X16_late_document_loses_photo (now now_c now_d : Z)
    (fails : nat -> bool) (photo doc : Message.t) (groups : Store)
    (fid filename : string) :
  groups !! _key photo = None ->
  _skip_user cfg photo = false ->
  photo_ref photo = Some fid ->
  now_c - now <= PHOTO_TTL cfg ->
  _skip_user cfg doc = false ->
  _key doc = _key photo ->
  Message.document doc = Some {| file_name := Some filename |} ->
  filename ≠ EmptyString ->
  extension filename ∈ ALLOWED_EXTENSIONS ->
  PHOTO_TTL cfg < now_d - now ->
  _handle_document cfg now_d fails doc
    (groups_after (_handle_photo cfg now now_c photo groups))
  = silent groups.
Proof.
  intros Hkey Hauth Href Hage Hauthd Hsame Hdoc Hname Hext Hlate.
  destruct (photo_ref_inv _ _ Href) as (sizes & size & Hphoto & Hsize & Hfid).
  pose (fresh := {| media_group_id := Message.media_group_id photo;
                    file_ids := [file_id size];
                    message_ids := [Message.message_id photo];
                    created_at := now |}).
  assert (groups_after (_handle_photo cfg now now_c photo groups)
          = <[_key photo := [fresh]]> groups) as ->.
  { rewrite (handle_photo_run _ _ _ _ _ _ _ Hauth Hphoto Hsize). cbv zeta.
    unfold queue_of. rewrite Hkey. simpl.
    rewrite cleanup_unfold, lookup_insert_eq. cbn [pop_expired].
    rewrite not_expired_within by exact Hage.
    apply insert_insert_eq. }
  assert (expired cfg now_d fresh = true) as Hexp
    by (unfold expired; apply Z.gtb_gt; simpl; lia).
  unfold _handle_document. rewrite Hauthd, Hdoc. simpl.
  destruct filename as [|c filename]; [done |]. simpl.
  rewrite (bool_decide_eq_true_2 _ Hext), Hsame, lookup_insert_eq. simpl.
  rewrite cleanup_unfold, lookup_insert_eq. cbn [pop_expired]. rewrite Hexp.
  rewrite lookup_delete_eq, delete_insert_eq, (delete_id _ _ Hkey).
  reflexivity.
Qed.

End Drops.

Lemma X15_dropped_documents_witness :
  let message := document_message 12 "archive.zip." None in
  (∃ s, Message.document message = Some {| file_name := Some (s +:+ ".") |})
  ∧ _handle_document source_config 5 never message (pending [album_batch])
    = silent (pending [album_batch]).
Proof.
  cbv zeta.
  assert (∃ s, Message.document (document_message 12 "archive.zip." None)
               = Some {| file_name := Some (s +:+ ".") |}) as Hdot
    by (by exists "archive.zip").
  split; [exact Hdot |].
  apply X15_dropped_documents. right; right; right; left. exact Hdot.
Defined.

Lemma X16_late_document_loses_photo_witness :
  let photo := photo_message 5 None "P1" None in
  let doc := document_message 6 "part.zip" None in
  PHOTO_TTL source_config < 660000000 - 0
  ∧ _handle_document source_config 660000000 never doc
      (groups_after (_handle_photo source_config 0 1 photo ∅))
    = silent ∅.
Proof.
  cbv zeta. split; [vm_compute; reflexivity |].
  apply (X16_late_document_loses_photo source_config 0 1 660000000 never
           (photo_message 5 None "P1" None)
           (document_message 6 "part.zip" None) ∅ "P1" "part.zip");
    try reflexivity; try discriminate; try (vm_compute; congruence).
Defined.
